(** * The Stiefel manifold of pymanopt: a shallow embedding

    Source: [src/pymanopt/manifolds/stiefel.py], the class [Stiefel].

    Conventions of the embedding.
    - The source is Python 2 (its loops run over [xrange]).
    - Python integers are [Z] (unbounded, as Python's int and long are).
    - The descriptor field [_dim] is a Python float computed from integer
      operands; it is modelled in IEEE 754 binary64 with the operations of
      the standard library's [SpecFloat] (round to nearest, ties to even),
      and the conversion of an integer to a float raises [OverflowError]
      when the integer is outside the binary64 range, as CPython does.
    - Arrays are modelled twice.  Over the reals ([np], [stiefel]), in exact
      arithmetic: this model states which formula the code evaluates (which
      operations, on which operands, in which order, slice by slice) and
      what follows from the formula alone.  Over binary64 ([np64],
      [stiefel64]), with the IEEE 754 operations of [SpecFloat] (rounding
      to nearest, [nan], [inf], signed zeros, underflow and overflow): this
      model states what depends on rounding, on the range of the floats or
      on a division by zero.  In the real-valued model a division is always
      by the constant 2.
    - In [np64] a sum is accumulated from the left, where numpy leaves the
      order to its kernels; the proofs on [np64] use sums of zeros only,
      and the examples sums with at most one nonzero term, which every
      order evaluates alike.
    - A 2-D array is a list of rows; a 3-D array is a list of 2-D slices.
      Elements of the manifold are 2-D when [k = 1] and 3-D when [k > 1]
      (module docstring, lines 6-7), and the type of the arrays a method
      takes follows the manifold it is called on.
    - The operations on arrays are total functions; they agree with numpy
      on operands of conforming shapes, where numpy raises or broadcasts
      otherwise, and the theorems state the shapes they need.
    - The kernels of numpy and scipy that the code calls ([np.linalg.qr],
      [scipy.linalg.expm], [np.random.randn]) are parameters. *)

From Stdlib Require Import ZArith List String Ascii Bool Lia.
From Stdlib Require Import DecimalString.
From Stdlib Require Import Floats.SpecFloat.
From Stdlib Require Import Reals Lra.
Import ListNotations.

(** ** Python exceptions and results *)

Module Py.

Inductive exn : Type :=
| ValueError (msg : string)
| NotImplementedError
| NameError (name : string)
| OverflowError
| IndexError
| AttributeError (attr : string)
| LinAlgError.

Inductive result (A : Type) : Type :=
| Ok (a : A)
| Raise (e : exn).

Arguments Ok {A} a.
Arguments Raise {A} e.

Definition bind {A B : Type} (r : result A) (f : A -> result B) : result B :=
  match r with
  | Ok a => f a
  | Raise e => Raise e
  end.

(** The [%d] conversion of the string formatting operator. *)
Definition fmt_d (z : Z) : string := NilZero.string_of_int (Z.to_int z).

(** [xrange(k)]: the indices [0 .. k-1], empty when [k <= 0]. *)
Definition xrange (k : Z) : list nat := seq 0 (Z.to_nat k).

(** [a[i]] on a sequence. *)
Definition getitem {A : Type} (a : list A) (i : nat) : result A :=
  match nth_error a i with
  | Some x => Ok x
  | None => Raise IndexError
  end.

Fixpoint update {A : Type} (a : list A) (i : nat) (x : A) : list A :=
  match a, i with
  | [], _ => []
  | _ :: t, O => x :: t
  | h :: t, S j => h :: update t j x
  end.

(** [a[i] = x] on a sequence. *)
Definition setitem {A : Type} (a : list A) (i : nat) (x : A) : result (list A) :=
  if (i <? List.length a)%nat then Ok (update a i x) else Raise IndexError.

(** Looking a name up among the bindings in scope. *)
Definition lookup {V : Type} (env : list (string * V)) (x : string) : result V :=
  match find (fun kv => String.eqb (fst kv) x) env with
  | Some kv => Ok (snd kv)
  | None => Raise (NameError x)
  end.

End Py.

Import Py.

Notation "x <- c1 ;; c2" := (Py.bind c1 (fun x => c2))
  (at level 61, c1 at next level, right associativity).

(** Applying a fallible operation to the pairs of two sequences in order;
    the first failure is the result. *)
Fixpoint mapM2 {A B C : Type} (f : A -> B -> result C) (l1 : list A)
  (l2 : list B) : result (list C) :=
  match l1, l2 with
  | a :: t1, b :: t2 =>
      c <- f a b ;; cs <- mapM2 f t1 t2 ;; Ok (c :: cs)
  | _, _ => Ok []
  end.

(** ** Python floats: IEEE 754 binary64 *)

Module Binary64.

Local Open Scope Z_scope.

Definition float : Type := spec_float.

Definition prec : Z := 53.
Definition emax : Z := 1024.

(** [float(z)] for an integer [z]: correctly rounded, [OverflowError] when
    the rounded value is not finite. *)
Definition float_of_int (z : Z) : result float :=
  match binary_normalize prec emax z 0 false with
  | S754_infinity _ => Raise OverflowError
  | f => Ok f
  end.

Definition float_mul (x y : float) : float := SFmul prec emax x y.
Definition float_sub (x y : float) : float := SFsub prec emax x y.

(** The literal [.5]. *)
Definition half : float := S754_finite false 4503599627370496 (-53).

(** The least positive integer whose conversion overflows: the integers
    from [2^1024 - 2^970] on round to [2^1024]. *)
Definition int_overflow : Z := 2 ^ 1024 - 2 ^ 970.

(** Mixed arithmetic converts the integer operand first. *)
Definition float_mul_int (x : float) (z : Z) : result float :=
  y <- float_of_int z ;; Ok (float_mul x y).

Definition int_sub_float (z : Z) (y : float) : result float :=
  x <- float_of_int z ;; Ok (float_sub x y).

Definition int_mul_float (z : Z) (y : float) : result float :=
  x <- float_of_int z ;; Ok (float_mul x y).

(** The integer a float is equal to, when it is one (Python's [x == z]
    between a float and an integer compares the exact values). *)
Definition integer_value (x : float) : option Z :=
  match x with
  | S754_zero _ => Some 0
  | S754_finite s m e =>
      let v := if s then Zneg m else Zpos m in
      if 0 <=? e then Some (v * 2 ^ e)
      else if v mod 2 ^ (- e) =? 0 then Some (v / 2 ^ (- e)) else None
  | _ => None
  end.

(** The binary64 encoding of [z * 2^e] for [0 <= z < 2^53]: mantissa shifted
    to 53 bits.  Used to state the results of exact operations. *)
Definition enc (z e : Z) : float :=
  match z with
  | Zpos c =>
      let d := Zpos (digits2_pos c) in
      S754_finite false (Z.to_pos (z * 2 ^ (53 - d))) (e - (53 - d))
  | _ => S754_zero false
  end.

End Binary64.

Import Binary64.


(** ** numpy arrays over the reals *)

Module np.

Local Open Scope R_scope.

(** A 2-D array, as the list of its rows. *)
Definition matrix : Type := list (list R).

Definition nrows (A : matrix) : nat := List.length A.
Definition ncols (A : matrix) : nat := List.length (hd [] A).

(** [A[i, j]] *)
Definition get (A : matrix) (i j : nat) : R := nth j (nth i A []) 0.

(** The array of shape [(n, p)] with entries [f i j]. *)
Definition mk (n p : nat) (f : nat -> nat -> R) : matrix :=
  map (fun i => map (fun j => f i j) (seq 0 p)) (seq 0 n).

(** [sum_n n f = f 0 + ... + f (n-1)] *)
Fixpoint sum_n (n : nat) (f : nat -> R) : R :=
  match n with
  | O => 0
  | S m => sum_n m f + f m
  end.

Definition sum_list (l : list R) : R := fold_right Rplus 0 l.

Fixpoint map2 {A B C : Type} (f : A -> B -> C) (l1 : list A) (l2 : list B)
  : list C :=
  match l1, l2 with
  | a :: t1, b :: t2 => f a b :: map2 f t1 t2
  | _, _ => []
  end.

(** [np.dot(A, B)] on 2-D arrays. *)
Definition dot (A B : matrix) : matrix :=
  mk (nrows A) (ncols B)
     (fun i j => sum_n (ncols A) (fun l => get A i l * get B l j)).

(** [A.T] *)
Definition T (A : matrix) : matrix :=
  mk (ncols A) (nrows A) (fun i j => get A j i).

(** [A + B], [A - B], [-A], [A / c] (elementwise). *)
Definition madd (A B : matrix) : matrix :=
  mk (nrows A) (ncols A) (fun i j => get A i j + get B i j).

Definition msub (A B : matrix) : matrix :=
  mk (nrows A) (ncols A) (fun i j => get A i j - get B i j).

Definition mneg (A : matrix) : matrix := map (map Ropp) A.

Definition mdiv (A : matrix) (c : R) : matrix := map (map (fun x => x / c)) A.

(** [np.eye(p)], [np.zeros((n, p))] *)
Definition eye (p : nat) : matrix :=
  mk p p (fun i j => if Nat.eqb i j then 1 else 0).

Definition zeros (n p : nat) : matrix := mk n p (fun _ _ => 0).

(** [np.diag] of a 2-D array (its diagonal) and of a 1-D array (the
    diagonal matrix). *)
Definition diagonal (A : matrix) : list R :=
  map (fun i => get A i i) (seq 0 (Nat.min (nrows A) (ncols A))).

Definition diag (v : list R) : matrix :=
  mk (List.length v) (List.length v)
     (fun i j => if Nat.eqb i j then nth i v 0 else 0).

(** [np.sign] *)
Definition sign (x : R) : R :=
  if Rlt_dec 0 x then 1 else if Rlt_dec x 0 then -1 else 0.

(** [np.bmat]: [[A, B]], [[[A], [B]]] and [[[A, B], [C, D]]]. *)
Definition hstack (A B : matrix) : matrix := map2 (@app R) A B.
Definition vstack (A B : matrix) : matrix := A ++ B.
Definition block2 (A B C D : matrix) : matrix :=
  vstack (hstack A B) (hstack C D).

(** An array of rank 2 ([single = true]) or 3 ([single = false]). *)
Definition ndarray (single : bool) : Type :=
  if single then matrix else list matrix.

(** The 2-D slices of an array, in order. *)
Definition slices {b : bool} : ndarray b -> list matrix :=
  match b with
  | true => fun M => [M]
  | false => fun Ms => Ms
  end.

Definition map_slices {b : bool} (f : matrix -> matrix)
  : ndarray b -> ndarray b :=
  match b with
  | true => f
  | false => map f
  end.

Definition zip_slices {b : bool} (f : matrix -> matrix -> matrix)
  : ndarray b -> ndarray b -> ndarray b :=
  match b with
  | true => f
  | false => map2 f
  end.

(** The elementwise operators at either rank. *)
Definition add {b : bool} : ndarray b -> ndarray b -> ndarray b :=
  zip_slices madd.
Definition sub {b : bool} : ndarray b -> ndarray b -> ndarray b :=
  zip_slices msub.
Definition div {b : bool} (A : ndarray b) (c : R) : ndarray b :=
  map_slices (fun M => mdiv M c) A.

(** [A.ravel()]: the entries in row-major order. *)
Definition ravel {b : bool} (A : ndarray b) : list R :=
  List.concat (map (@List.concat R) (slices A)).


(** [np.linalg.norm(G)] with the default [ord]: the Frobenius norm,
    the square root of the sum of the squared absolute values. *)
Definition linalg_norm {b : bool} (G : ndarray b) : R :=
  sqrt (sum_list (map (fun x => Rsqr (Rabs x)) (ravel G))).

(** [np.zeros((k, n, p))] *)
Definition zeros3 (k n p : nat) : list matrix := repeat (zeros n p) k.

(** [np.zeros(np.shape(X))] for a 3-D array [X]. *)
Definition zeros_like3 (X : list matrix) : list matrix :=
  map (fun _ => zeros (nrows (hd [] X)) (ncols (hd [] X))) X.

End np.

(** ** The helpers of [pymanopt.tools.multi] *)

Module multi.

Import np.

(** [pymanopt/tools/multi.py] is not among the sources.  The spec
    (sections 1, 2 and 4.3) describes this helper layer as the batched
    product-multiply, product-transpose and symmetric part, applied to each
    slice of a stack and to a single matrix alike, with
    [sym(M) = (M + Mt)/2]. *)

(** Modelled from the spec: [multiprod], the matrix product of each pair of
    slices. *)
Definition multiprod {b : bool} (A B : ndarray b) : ndarray b :=
  zip_slices dot A B.

(** Modelled from the spec: [multitransp], the transpose of each slice. *)
Definition multitransp {b : bool} (A : ndarray b) : ndarray b :=
  map_slices T A.

(** Modelled from the spec: the symmetric part [(M + Mt)/2] of a matrix. *)
Definition sym (M : matrix) : matrix := mdiv (madd M (T M)) 2.

(** Modelled from the spec: [multisym], the symmetric part of each slice. *)
Definition multisym {b : bool} (A : ndarray b) : ndarray b :=
  map_slices sym A.

End multi.

(** ** numpy arrays of binary64 numbers *)

Module np64.

(** The arithmetic of [float64] entries: the IEEE 754 operations, which
    return [nan] and [inf] where the standard says so and raise nothing. *)
Definition float_add (x y : float) : float := SFadd prec emax x y.
Definition float_div (x y : float) : float := SFdiv prec emax x y.
Definition float_sqrt (x : float) : float := SFsqrt prec emax x.
Definition float_abs (x : float) : float := SFabs x.

(** The values [0.0], [1.0] and [2.0]. *)
Definition zero : float := S754_zero false.
Definition one : float := S754_finite false 4503599627370496 (-52).
Definition two : float := S754_finite false 4503599627370496 (-51).

(** A 2-D array, as the list of its rows. *)
Definition matrix : Type := list (list float).

Definition nrows (A : matrix) : nat := List.length A.
Definition ncols (A : matrix) : nat := List.length (hd [] A).

(** [A[i, j]] *)
Definition get (A : matrix) (i j : nat) : float := nth j (nth i A []) zero.

(** The array of shape [(n, p)] with entries [f i j]. *)
Definition mk (n p : nat) (f : nat -> nat -> float) : matrix :=
  map (fun i => map (fun j => f i j) (seq 0 p)) (seq 0 n).

(** [f 0 + ... + f (n-1)], accumulated from the left. *)
Fixpoint sum_n (n : nat) (f : nat -> float) : float :=
  match n with
  | O => zero
  | S m => float_add (sum_n m f) (f m)
  end.

Definition sum_list (l : list float) : float := fold_left float_add l zero.

(** [np.dot(A, B)] on 2-D arrays. *)
Definition dot (A B : matrix) : matrix :=
  mk (nrows A) (ncols B)
     (fun i j => sum_n (ncols A) (fun l => float_mul (get A i l) (get B l j))).

(** [A.T] *)
Definition T (A : matrix) : matrix :=
  mk (ncols A) (nrows A) (fun i j => get A j i).

(** [A + B], [A - B], [A / c] (elementwise). *)
Definition madd (A B : matrix) : matrix :=
  mk (nrows A) (ncols A) (fun i j => float_add (get A i j) (get B i j)).

Definition msub (A B : matrix) : matrix :=
  mk (nrows A) (ncols A) (fun i j => float_sub (get A i j) (get B i j)).

Definition mdiv (A : matrix) (c : float) : matrix :=
  map (map (fun x => float_div x c)) A.

(** An array of rank 2 ([single = true]) or 3 ([single = false]). *)
Definition ndarray (single : bool) : Type :=
  if single then matrix else list matrix.

(** The 2-D slices of an array, in order. *)
Definition slices {b : bool} : ndarray b -> list matrix :=
  match b with
  | true => fun M => [M]
  | false => fun Ms => Ms
  end.

Definition map_slices {b : bool} (f : matrix -> matrix)
  : ndarray b -> ndarray b :=
  match b with
  | true => f
  | false => map f
  end.

Definition zip_slices {b : bool} (f : matrix -> matrix -> matrix)
  : ndarray b -> ndarray b -> ndarray b :=
  match b with
  | true => f
  | false => np.map2 f
  end.

(** The elementwise operators at either rank. *)
Definition add {b : bool} : ndarray b -> ndarray b -> ndarray b :=
  zip_slices madd.
Definition sub {b : bool} : ndarray b -> ndarray b -> ndarray b :=
  zip_slices msub.
Definition div {b : bool} (A : ndarray b) (c : float) : ndarray b :=
  map_slices (fun M => mdiv M c) A.

(** [A.ravel()]: the entries in row-major order. *)
Definition ravel {b : bool} (A : ndarray b) : list float :=
  List.concat (map (@List.concat float) (slices A)).

(** [np.linalg.norm(G)] with the default [ord]: the square root of the sum
    of the squared absolute values. *)
Definition linalg_norm {b : bool} (G : ndarray b) : float :=
  float_sqrt
    (sum_list (map (fun x => float_mul (float_abs x) (float_abs x)) (ravel G))).

(** Modelled from the spec: [multiprod], the matrix product of each pair of
    slices. *)
Definition multiprod {b : bool} (A B : ndarray b) : ndarray b :=
  zip_slices dot A B.

(** Modelled from the spec: [multitransp], the transpose of each slice. *)
Definition multitransp {b : bool} (A : ndarray b) : ndarray b :=
  map_slices T A.

End np64.

Import multi.

(** ** The class [Stiefel] *)

Module stiefel.

Import np.
Local Open Scope string_scope.

(** The instance attributes set by [__init__].  [_name] is assigned in an
    [if]/[elif] without [else], so it may stay unset. *)
Record Stiefel : Type := {
  _n : Z;
  _p : Z;
  _k : Z;
  _dim : float;
  _name : option string
}.

Definition msg_np (height width : Z) : string :=
  "Need n >= p >= 1. Values supplied were n = " ++ fmt_d height
  ++ " and p = " ++ fmt_d width ++ ".".

Definition msg_k (k : Z) : string :=
  "Need k >= 1. Value supplied was k = " ++ fmt_d k ++ ".".

(** [self._k*(self._n*self._p - .5*self._p*(self._p+1))] *)
Definition dim_of (n p k : Z) : result float :=
  half_p <- float_mul_int half p ;;
  tri <- float_mul_int half_p (p + 1)%Z ;;
  diff <- int_sub_float (n * p)%Z tri ;;
  int_mul_float k diff.

Definition name_of (n p k : Z) : option string :=
  if (k =? 1)%Z then
    Some ("Stiefel manifold St(" ++ fmt_d n ++ ", " ++ fmt_d p ++ ")")
  else if (k >=? 2)%Z then
    Some ("Product Stiefel manifold St(" ++ fmt_d n ++ ", " ++ fmt_d p
          ++ ")^" ++ fmt_d k)
  else None.

Definition __init__ (height width k : Z) : result Stiefel :=
  if ((height <? width) || (width <? 1))%Z then
    Raise (ValueError (msg_np height width))
  else if (k <? 1)%Z then
    Raise (ValueError (msg_k k))
  else
    d <- dim_of height width k ;;
    Ok {| _n := height; _p := width; _k := k;
          _dim := d; _name := name_of height width k |}.

(** The read-only properties. *)
Definition dim (self : Stiefel) : float := _dim self.

Definition name (self : Stiefel) : result string :=
  match _name self with
  | Some s => Ok s
  | None => Raise (AttributeError "_name")
  end.

(** The property [typicaldist] ([np.sqrt(self._p * self._k)]) is left out:
    what [np.sqrt] does with a Python integer beyond 64 bits is decided by
    numpy's fallback to object arrays, which is not part of this model. *)

Local Open Scope R_scope.

Section Methods.

(** The kernels: [np.linalg.qr] (thin QR), [scipy.linalg.expm] and
    [np.random.randn] with its generator state threaded through. *)
Variable qr : matrix -> result (matrix * matrix).
Variable expm : matrix -> result matrix.
Variable rng : Type.
Variable randn2 : rng -> nat -> nat -> matrix * rng.

(** [self._k == 1] *)
Definition single (self : Stiefel) : bool := (_k self =? 1)%Z.

(** Points and tangent vectors of the manifold [self]. *)
Definition array (self : Stiefel) : Type := ndarray (single self).

Definition dist (self : Stiefel) (X Y : array self) : result R :=
  Raise NotImplementedError.


Definition proj (self : Stiefel) : array self -> array self -> array self :=
  match single self as b return ndarray b -> ndarray b -> ndarray b with
  | true => fun X U =>
      msub U (mdiv (dot X (madd (dot (T X) U) (dot (T U) X))) 2)
  | false => fun X U =>
      sub U (div (multiprod X (add (multiprod (multitransp X) U)
                                   (multiprod (multitransp U) X))) 2)
  end.


Definition ehess2rhess (self : Stiefel) (X egrad ehess H : array self)
  : array self :=
  let XtG := multiprod (multitransp X) egrad in
  let symXtG := multisym XtG in
  let HsymXtG := multiprod H symXtG in
  proj self X (sub ehess HsymXtG).

(** [np.dot(q, np.diag(np.sign(np.sign(np.diag(r))+.5)))] *)
Definition unflip (q r : matrix) : matrix :=
  dot q (diag (map sign (map (fun s => s + 0.5) (map sign (diagonal r))))).

(** The loop of [retr] for [k > 1].  Its body reads the name [Y], and the
    arrays bound in the scope of [retr] are [X], [G] and [XNew]. *)
Fixpoint retr_loop (X G : list matrix) (idx : list nat) (XNew : list matrix)
  : result (list matrix) :=
  match idx with
  | [] => Ok XNew
  | i :: rest =>
      Y <- lookup [("X", X); ("G", G); ("XNew", XNew)]%string "Y" ;;
      Yi <- getitem Y i ;;
      qr_ <- qr Yi ;;
      XNew' <- setitem XNew i (unflip (fst qr_) (snd qr_)) ;;
      retr_loop X G rest XNew'
  end.

Definition retr (self : Stiefel)
  : array self -> array self -> result (array self) :=
  match single self as b return ndarray b -> ndarray b -> result (ndarray b) with
  | true => fun X G =>
      qr_ <- qr (madd X G) ;;
      Ok (unflip (fst qr_) (snd qr_))
  | false => fun X G =>
      retr_loop X G (xrange (_k self)) (add X G)
  end.


(** [randvec] divides by a computed norm, which can be zero: it is
    modelled on binary64 arrays, in [stiefel64]. *)

(** The loop of [rand] for [k > 1]: [X[i]] receives the Q factor of a fresh
    draw.  The generator state survives a failure of the QR kernel. *)
Fixpoint rand_loop (n p : nat) (idx : list nat) (X : list matrix) (g : rng)
  : result (list matrix) * rng :=
  match idx with
  | [] => (Ok X, g)
  | i :: rest =>
      let (A, g') := randn2 g n p in
      match qr A with
      | Raise e => (Raise e, g')
      | Ok qr_ =>
          match setitem X i (fst qr_) with
          | Raise e => (Raise e, g')
          | Ok X' => rand_loop n p rest X' g'
          end
      end
  end.

Definition rand (self : Stiefel) (g : rng) : result (array self) * rng :=
  match single self as b return result (ndarray b) * rng with
  | true =>
      let (X, g') := randn2 g (Z.to_nat (_n self)) (Z.to_nat (_p self)) in
      (qr_ <- qr X ;; Ok (fst qr_), g')
  | false =>
      rand_loop (Z.to_nat (_n self)) (Z.to_nat (_p self)) (xrange (_k self))
        (zeros3 (Z.to_nat (_k self)) (Z.to_nat (_n self)) (Z.to_nat (_p self)))
        g
  end.

Definition transp (self : Stiefel) (x1 x2 d : array self) : array self :=
  proj self x2 d.

Definition log (self : Stiefel) (X Y : array self) : result (array self) :=
  Raise NotImplementedError.

(** The loop of [exp] for [k > 1]: [Y[i]] is assigned for [i] in order. *)
Fixpoint exp_loop (p : nat) (X U : list matrix) (idx : list nat)
  (Y : list matrix) : result (list matrix) :=
  match idx with
  | [] => Ok Y
  | i :: rest =>
      Xi <- getitem X i ;;
      Ui <- getitem U i ;;
      E1 <- expm (block2 (dot (T Xi) Ui) (mneg (dot (T Ui) Ui))
                         (eye p) (dot (T Xi) Ui)) ;;
      E2 <- expm (mneg (dot (T Xi) Ui)) ;;
      Y' <- setitem Y i (dot (dot (hstack Xi Ui) E1) (vstack E2 (zeros p p))) ;;
      exp_loop p X U rest Y'
  end.

Definition exp (self : Stiefel)
  : array self -> array self -> result (array self) :=
  match single self as b return ndarray b -> ndarray b -> result (ndarray b) with
  | true => fun X U =>
      E1 <- expm (block2 (dot (T X) U) (mneg (dot (T U) U))
                         (eye (Z.to_nat (_p self))) (dot (T X) U)) ;;
      E2 <- expm (mneg (dot (T X) U)) ;;
      Ok (dot (dot (hstack X U) E1)
              (vstack E2 (zeros (Z.to_nat (_p self)) (Z.to_nat (_p self)))))
  | false => fun X U =>
      exp_loop (Z.to_nat (_p self)) X U (xrange (_k self)) (zeros_like3 X)
  end.

End Methods.

End stiefel.

(** ** The methods of [Stiefel] on binary64 arrays *)

Module stiefel64.

Import stiefel.

Section Methods.

(** The kernel [np.random.randn], with its generator state threaded
    through. *)
Variable rng : Type.
Variable randn2 : rng -> nat -> nat -> np64.matrix * rng.
Variable randn3 : rng -> nat -> nat -> nat -> list np64.matrix * rng.

(** Points and tangent vectors of the manifold [self]. *)
Definition array (self : Stiefel) : Type := np64.ndarray (single self).

Definition proj (self : Stiefel) : array self -> array self -> array self :=
  match single self as b
    return np64.ndarray b -> np64.ndarray b -> np64.ndarray b with
  | true => fun X U =>
      np64.msub U
        (np64.mdiv (np64.dot X (np64.madd (np64.dot (np64.T X) U)
                                          (np64.dot (np64.T U) X)))
           np64.two)
  | false => fun X U =>
      np64.sub U
        (np64.div
           (np64.multiprod X
              (np64.add (np64.multiprod (np64.multitransp X) U)
                        (np64.multiprod (np64.multitransp U) X)))
           np64.two)
  end.



Definition transp (self : Stiefel) (x1 x2 d : array self) : array self :=
  proj self x2 d.

End Methods.

End stiefel64.

Import np stiefel.

(** ** Definitions used to state the properties *)

Local Open Scope R_scope.

(** Arrays of shape [(n, p)]. *)
Definition has_shape (n p : nat) (A : matrix) : Prop :=
  List.length A = n /\ Forall (fun r => List.length r = p) A.

(** The projection as the spec states it: [U - X sym(Xt U)]. *)
Definition proj_spec (X U : matrix) : matrix :=
  msub U (dot X (sym (dot (T X) U))).

(** The expression of the [k == 1] branch of [proj] (line 62). *)
Definition proj_code (X U : matrix) : matrix :=
  msub U (mdiv (dot X (madd (dot (T X) U) (dot (T U) X))) 2).

(** The exponential map as the spec states it, with [A = Xt U]:
    [[X | U] expm([[A, -Ut U], [I_p, A]]) [expm(-A); 0]]. *)
Definition exp_closed_form (expm : matrix -> result matrix) (p : nat)
  (X U : matrix) : result matrix :=
  let A := dot (T X) U in
  E1 <- expm (block2 A (mneg (dot (T U) U)) (eye p) A) ;;
  E2 <- expm (mneg A) ;;
  Ok (dot (dot (hstack X U) E1) (vstack E2 (zeros p p))).

(** [X] has orthonormal columns: [Xt X = I_p]. *)
Definition orthonormal (p : nat) (X : matrix) : Prop :=
  dot (T X) X = eye p.


(** [A] is an array of [k] slices of shape [(n, p)]. *)
Definition stack_shape {b : bool} (k n p : nat) (A : ndarray b) : Prop :=
  List.length (slices A) = k /\ Forall (has_shape n p) (slices A).

(** The sign that [retr] gives column [j] of the Q factor: [1] when
    [r[j][j] >= 0] and [-1] otherwise. *)
Definition flip_sign (r : matrix) (j : nat) : R :=
  if Rle_dec 0 (get r j j) then 1 else -1.

(** [r] with row [i] multiplied by [flip_sign r i]. *)
Definition flip_rows (p : nat) (r : matrix) : matrix :=
  mk p p (fun i j => flip_sign r i * get r i j).

(** [r] is upper triangular. *)
Definition upper_triangular (p : nat) (r : matrix) : Prop :=
  forall i j, (i < p)%nat -> (j < i)%nat -> get r i j = 0.

(** [k] successive draws of an [n] by [p] matrix, each replaced by the Q
    factor of its QR factorisation; the first failure of the QR kernel ends
    the sequence. *)
Fixpoint rand_draws (qr : matrix -> result (matrix * matrix)) (rng : Type)
  (randn2 : rng -> nat -> nat -> matrix * rng) (n p k : nat) (g : rng)
  : result (list matrix) * rng :=
  match k with
  | O => (Ok [], g)
  | S k' =>
      let (A, g') := randn2 g n p in
      match qr A with
      | Raise e => (Raise e, g')
      | Ok qr_ =>
          let (r, g'') := rand_draws qr rng randn2 n p k' g' in
          (Qs <- r ;; Ok (fst qr_ :: Qs), g'')
      end
  end.


(** The manifold [self] with [k] set to 1. *)
Definition as_single (self : Stiefel) : Stiefel :=
  {| _n := _n self; _p := _p self; _k := 1;
     _dim := _dim self; _name := _name self |}.

(** The manifolds [Stiefel(2, 1)] and [Stiefel(2, 1, k=2)]. *)
Definition St_2_1 : Stiefel :=
  {| _n := 2; _p := 1; _k := 1;
     _dim := S754_finite false 4503599627370496 (-52);
     _name := Some "Stiefel manifold St(2, 1)"%string |}.

Definition St_2_1_k2 : Stiefel :=
  {| _n := 2; _p := 1; _k := 2;
     _dim := S754_finite false 4503599627370496 (-51);
     _name := Some "Product Stiefel manifold St(2, 1)^2"%string |}.

(** *** On binary64 arrays *)

(** [x] is [0.0] or [-0.0]. *)
Definition is_zero (x : float) : bool :=
  match x with
  | S754_zero _ => true
  | _ => false
  end.

(** [x] is neither [nan] nor infinite ([np.isfinite]). *)
Definition is_finite (x : float) : bool :=
  match x with
  | S754_zero _ | S754_finite _ _ _ => true
  | _ => false
  end.

(** [x] and [y] are the same float, or zeros of either sign. *)
Definition same_float (x y : float) : Prop :=
  x = y \/ (is_zero x = true /\ is_zero y = true).

Definition same_matrix (A B : np64.matrix) : Prop :=
  Forall2 (Forall2 same_float) A B.

(** Every entry of [A] satisfies [P]. *)
Definition all_entries (P : float -> bool) (A : np64.matrix) : Prop :=
  Forall (Forall (fun x => P x = true)) A.

Definition has_shape64 (n p : nat) (A : np64.matrix) : Prop :=
  List.length A = n /\ Forall (fun r => List.length r = p) A.

Definition stack_shape64 {b : bool} (k n p : nat) (A : np64.ndarray b)
  : Prop :=
  List.length (np64.slices A) = k
  /\ Forall (has_shape64 n p) (np64.slices A).

(** [Xt U + Ut X] as line 62 computes it. *)
Definition residual64 (X U : np64.matrix) : np64.matrix :=
  np64.madd (np64.dot (np64.T X) U) (np64.dot (np64.T U) X).

(** The expression of the [k == 1] branch of [proj] (line 62) on binary64
    arrays. *)
Definition proj_code64 (X U : np64.matrix) : np64.matrix :=
  np64.msub U (np64.mdiv (np64.dot X (residual64 X U)) np64.two).

(** The float [2^e], for [-1022 <= e <= 1023]. *)
Definition pow2 (e : Z) : float :=
  S754_finite false 4503599627370496 (e - 52).

(** The manifold [Stiefel(3, 2)]. *)
Definition St_3_2 : Stiefel :=
  {| _n := 3; _p := 2; _k := 1;
     _dim := S754_finite false 6755399441055744 (-51);
     _name := Some "Stiefel manifold St(3, 2)"%string |}.





(** ** Facts about binary64 arithmetic *)

Section Binary64Facts.

Local Open Scope Z_scope.

Lemma digits2_pos_log2 (p : positive) :
  Zpos (digits2_pos p) = Z.log2 (Zpos p) + 1.
Proof.
  destruct p as [q|q|]; simpl; try reflexivity;
  rewrite Pos2Z.inj_succ; f_equal;
  induction q as [r IH|r IH|]; simpl; try reflexivity;
  rewrite !Pos2Z.inj_succ; try rewrite IH; reflexivity.
Qed.

Lemma digits_bounds (p : positive) :
  2 ^ (Zpos (digits2_pos p) - 1) <= Zpos p < 2 ^ Zpos (digits2_pos p).
Proof.
  rewrite digits2_pos_log2.
  replace (Z.log2 (Zpos p) + 1 - 1) with (Z.log2 (Zpos p)) by lia.
  generalize (Z.log2_spec (Zpos p)). rewrite <- Z.add_1_r. lia.
Qed.

Lemma digits_unique (p : positive) (d : Z) :
  2 ^ (d - 1) <= Zpos p < 2 ^ d -> Zpos (digits2_pos p) = d.
Proof.
  intros H. rewrite digits2_pos_log2.
  assert (0 < d).
  { destruct (Z_lt_le_dec 0 d) as [|Hd]; [assumption|].
    assert (2 ^ d <= 2 ^ 0) by (apply Z.pow_le_mono_r; lia).
    simpl in *. lia. }
  assert (Z.log2 (Zpos p) = d - 1); [|lia].
  apply Z.log2_unique; [lia|]. replace (Z.succ (d - 1)) with d by lia. exact H.
Qed.

Lemma Zdigits2_mul_pow2 (c : positive) (j : Z) :
  0 <= j -> Zdigits2 (Zpos c * 2 ^ j) = Zpos (digits2_pos c) + j.
Proof.
  intros Hj.
  assert (Hp : 0 < 2 ^ j) by (apply Z.pow_pos_nonneg; lia).
  destruct (digits_bounds c) as [Hl Hu].
  assert (Hd : 0 < Zpos (digits2_pos c)) by lia.
  assert (H : 2 ^ (Zpos (digits2_pos c) + j - 1) <= Zpos c * 2 ^ j
              < 2 ^ (Zpos (digits2_pos c) + j)).
  { split.
    - replace (Zpos (digits2_pos c) + j - 1)
        with (Zpos (digits2_pos c) - 1 + j) by lia.
      rewrite Z.pow_add_r by lia.
      apply Z.mul_le_mono_nonneg_r; lia.
    - rewrite Z.pow_add_r by lia. apply Z.mul_lt_mono_pos_r; lia. }
  destruct (Zpos c * 2 ^ j) as [|m|m] eqn:E; try lia.
  simpl. apply digits_unique. exact H.
Qed.

Lemma iter_pos_nat {A : Type} (f : A -> A) (n : positive) (x : A) :
  SpecFloat.iter_pos f n x = Nat.iter (Pos.to_nat n) f x.
Proof.
  revert x. induction n as [n IH|n IH|]; intros x; cbn [SpecFloat.iter_pos].
  - rewrite !IH, Pos2Nat.inj_xI, <- Nat.iter_add, <- Nat.iter_succ_r.
    f_equal. lia.
  - rewrite !IH, Pos2Nat.inj_xO, <- Nat.iter_add. f_equal. lia.
  - reflexivity.
Qed.

Lemma shr_1_double (z : Z) :
  0 < z ->
  shr_1 (Build_shr_record (2 * z) false false) = Build_shr_record z false false.
Proof. destruct z; try lia. intros _. reflexivity. Qed.

Lemma iter_shr_1_exact (n : nat) (z : Z) :
  0 < z ->
  Nat.iter n shr_1 (Build_shr_record (z * 2 ^ Z.of_nat n) false false)
  = Build_shr_record z false false.
Proof.
  revert z. induction n as [|n IH]; intros z Hz.
  - simpl. rewrite Z.mul_1_r. reflexivity.
  - rewrite Nat.iter_succ_r.
    rewrite Nat2Z.inj_succ, Z.pow_succ_r by lia.
    replace (z * (2 * 2 ^ Z.of_nat n)) with (2 * (z * 2 ^ Z.of_nat n)) by ring.
    rewrite shr_1_double.
    + apply IH. exact Hz.
    + assert (0 < 2 ^ Z.of_nat n) by (apply Z.pow_pos_nonneg; lia). nia.
Qed.

Lemma fexp_normal (x : Z) :
  -1074 <= x - 53 -> fexp 53 1024 x = x - 53.
Proof. intros H. unfold fexp, emin. lia. Qed.

(** Shifting a mantissa [c * 2^j] whose low bits are zero loses nothing. *)
Lemma shr_fexp_exact (c : positive) (j e : Z) :
  let d := Zpos (digits2_pos c) in
  d <= 53 -> 53 - d <= j -> -1074 <= e + j - (53 - d) ->
  shr_fexp 53 1024 (Zpos c * 2 ^ j) e loc_Exact
  = (Build_shr_record (Zpos c * 2 ^ (53 - d)) false false, e + j - (53 - d)).
Proof.
  intros d Hd Hj He. unfold shr_fexp.
  assert (Hdpos : 0 < d) by (unfold d; lia).
  rewrite Zdigits2_mul_pow2 by lia. fold d.
  rewrite fexp_normal by lia.
  cbn [shr_record_of_loc].
  replace (d + j + e - 53 - e) with (j - (53 - d)) by lia.
  unfold shr.
  destruct (j - (53 - d)) as [|n|n] eqn:En; try lia.
  - replace j with (53 - d) by lia. f_equal. lia.
  - rewrite iter_pos_nat. f_equal; [|lia].
    replace (Zpos c * 2 ^ j)
      with (Zpos c * 2 ^ (53 - d) * 2 ^ Z.of_nat (Pos.to_nat n)).
    + apply iter_shr_1_exact.
      assert (0 < 2 ^ (53 - d)) by (apply Z.pow_pos_nonneg; lia). nia.
    + rewrite positive_nat_Z, <- Z.mul_assoc, <- Z.pow_add_r by lia.
      do 2 f_equal. lia.
Qed.

Lemma binary_round_aux_exact (s : bool) (c : positive) (j e : Z) :
  let d := Zpos (digits2_pos c) in
  d <= 53 -> 53 - d <= j -> -1074 <= e + j - (53 - d) <= 971 ->
  binary_round_aux 53 1024 s (Zpos c * 2 ^ j) e loc_Exact
  = S754_finite s (Z.to_pos (Zpos c * 2 ^ (53 - d))) (e + j - (53 - d)).
Proof.
  intros d Hd Hj He. unfold binary_round_aux.
  rewrite shr_fexp_exact by (fold d; lia). fold d.
  cbn [shr_m loc_of_shr_record round_nearest_even].
  assert (Hdpos : 0 < d) by (unfold d; lia).
  rewrite shr_fexp_exact by (fold d; lia). fold d.
  cbn [shr_m].
  assert (Hm : 0 < Zpos c * 2 ^ (53 - d)).
  { assert (0 < 2 ^ (53 - d)) by (apply Z.pow_pos_nonneg; lia). nia. }
  destruct (Zpos c * 2 ^ (53 - d)) as [|m|m] eqn:Em; try lia.
  replace (e + j - (53 - d) + (53 - d) - (53 - d)) with (e + j - (53 - d)) by lia.
  replace (e + j - (53 - d) <=? 1024 - 53) with true
    by (symmetry; apply Z.leb_le; lia).
  reflexivity.
Qed.

Lemma Zpos_iter_xO (m q : positive) :
  Zpos (Pos.iter xO m q) = Zpos m * 2 ^ Zpos q.
Proof.
  induction q as [|q IH] using Pos.peano_ind.
  - simpl. lia.
  - rewrite Pos.iter_succ, Pos2Z.inj_xO, IH, Pos2Z.inj_succ, Z.pow_succ_r by lia.
    ring.
Qed.

Lemma shl_align_value (m : positive) (e e' : Z) :
  e' <= e ->
  shl_align m e e' = (Z.to_pos (Zpos m * 2 ^ (e - e')), e').
Proof.
  intros H. unfold shl_align.
  destruct (e' - e) as [|q|q] eqn:E; try lia.
  - replace (e - e') with 0 by lia. replace e' with e by lia.
    rewrite Z.mul_1_r. reflexivity.
  - replace (e - e') with (Zpos q) by lia.
    rewrite <- Zpos_iter_xO. reflexivity.
Qed.

(** Normalising [c * 2^j * 2^e], with [c] below [2^53], is exact. *)
Lemma binary_normalize_exact (c : positive) (j e : Z) :
  let d := Zpos (digits2_pos c) in
  d <= 53 -> 0 <= j -> -1074 <= e + j - (53 - d) <= 971 ->
  binary_normalize 53 1024 (Zpos c * 2 ^ j) e false
  = S754_finite false (Z.to_pos (Zpos c * 2 ^ (53 - d))) (e + j - (53 - d)).
Proof.
  intros d Hd Hj He.
  assert (Hdpos : 0 < d) by (unfold d; lia).
  assert (Hm : 0 < Zpos c * 2 ^ j).
  { assert (0 < 2 ^ j) by (apply Z.pow_pos_nonneg; lia). nia. }
  assert (Hdig : Zdigits2 (Zpos c * 2 ^ j) = d + j)
    by (apply Zdigits2_mul_pow2; lia).
  destruct (Zpos c * 2 ^ j) as [|m|m] eqn:Em; try lia.
  cbn [binary_normalize]. unfold binary_round.
  cbn [Zdigits2] in Hdig. rewrite Hdig, fexp_normal by lia.
  destruct (Z_le_gt_dec (d + j + e - 53) e) as [Hle|Hgt].
  - rewrite shl_align_value by lia. cbv beta iota.
    rewrite <- Em, <- Z.mul_assoc, <- Z.pow_add_r by lia.
    assert (Hq : 0 < Zpos c * 2 ^ (j + (e - (d + j + e - 53)))).
    { assert (0 < 2 ^ (j + (e - (d + j + e - 53))))
        by (apply Z.pow_pos_nonneg; lia). nia. }
    rewrite Z2Pos.id by lia.
    rewrite binary_round_aux_exact by (fold d; lia). fold d.
    f_equal. lia.
  - unfold shl_align.
    destruct (d + j + e - 53 - e) as [|q|q] eqn:E; try lia.
    rewrite <- Em.
    rewrite binary_round_aux_exact by (fold d; lia). reflexivity.
Qed.

Lemma digits_le_53 (c : positive) :
  Zpos c < 2 ^ 53 -> Zpos (digits2_pos c) <= 53.
Proof.
  intros H. destruct (digits_bounds c) as [Hl _].
  destruct (Z_le_gt_dec (Zpos (digits2_pos c)) 53) as [|Hgt]; [assumption|].
  assert (2 ^ 53 <= 2 ^ (Zpos (digits2_pos c) - 1))
    by (apply Z.pow_le_mono_r; lia).
  lia.
Qed.

Lemma enc_pos (c : positive) (e : Z) :
  enc (Zpos c) e
  = S754_finite false
      (Z.to_pos (Zpos c * 2 ^ (53 - Zpos (digits2_pos c))))
      (e - (53 - Zpos (digits2_pos c))).
Proof. reflexivity. Qed.

Lemma float_of_int_exact (z : Z) :
  0 <= z < 2 ^ 53 -> float_of_int z = Ok (enc z 0).
Proof.
  intros Hz. unfold float_of_int, prec, emax.
  destruct z as [|c|c]; try lia; [reflexivity|].
  assert (Hd := digits_le_53 c ltac:(lia)).
  assert (Hdpos : 0 < Zpos (digits2_pos c)) by lia.
  replace (Zpos c) with (Zpos c * 2 ^ 0) at 1 by (rewrite Z.mul_1_r; reflexivity).
  rewrite binary_normalize_exact by (cbv zeta; lia).
  rewrite enc_pos. reflexivity.
Qed.

(** A product whose exact value [c * 2^(ea+eb+j)] has a mantissa below
    [2^53] is computed without rounding. *)
Lemma float_mul_exact (a b c ea eb j : Z) :
  0 < a < 2 ^ 53 -> 0 < b < 2 ^ 53 -> 0 < c < 2 ^ 53 -> 0 <= j ->
  a * b = c * 2 ^ j ->
  -1022 <= ea + eb + j <= 971 ->
  float_mul (enc a ea) (enc b eb) = enc c (ea + eb + j).
Proof.
  intros Ha Hb Hc Hj Hab He.
  destruct a as [|a|a]; try lia. destruct b as [|b|b]; try lia.
  destruct c as [|c|c]; try lia.
  rewrite !enc_pos. unfold float_mul, prec, emax. cbn [SFmul xorb].
  set (da := Zpos (digits2_pos a)). set (db := Zpos (digits2_pos b)).
  set (dc := Zpos (digits2_pos c)).
  assert (Hda := digits_le_53 a ltac:(lia)). fold da in Hda.
  assert (Hdb := digits_le_53 b ltac:(lia)). fold db in Hdb.
  assert (Hdc := digits_le_53 c ltac:(lia)). fold dc in Hdc.
  assert (Hda0 : 0 < da) by (unfold da; lia).
  assert (Hdb0 : 0 < db) by (unfold db; lia).
  assert (Hdc0 : 0 < dc) by (unfold dc; lia).
  assert (Hpa : 0 < 2 ^ (53 - da)) by (apply Z.pow_pos_nonneg; lia).
  assert (Hpb : 0 < 2 ^ (53 - db)) by (apply Z.pow_pos_nonneg; lia).
  rewrite Pos2Z.inj_mul, !Z2Pos.id by nia.
  replace (Zpos a * 2 ^ (53 - da) * (Zpos b * 2 ^ (53 - db)))
    with (Zpos c * 2 ^ (j + (53 - da) + (53 - db))).
  2:{ rewrite !Z.pow_add_r by lia. 
      transitivity (Zpos a * Zpos b * 2 ^ (53 - da) * 2 ^ (53 - db)); [|ring].
      rewrite Hab. ring. }
  (* the digits of the product bound the shift from below *)
  assert (Hlog : da + db - 1 <= dc + j).
  { assert (H1 : Z.log2 (Zpos a) + Z.log2 (Zpos b) <= Z.log2 (Zpos a * Zpos b))
      by (apply Z.log2_mul_below; lia).
    rewrite Hab, Z.log2_mul_pow2 in H1 by lia.
    unfold da, db, dc. rewrite !digits2_pos_log2. lia. }
  rewrite binary_round_aux_exact by (fold dc; lia). fold dc.
  f_equal. lia.
Qed.

Lemma float_mul_zero_r (a ea : Z) :
  0 < a -> float_mul (enc a ea) (enc 0 0) = enc 0 0.
Proof. intros Ha. destruct a; try lia. reflexivity. Qed.

(** The difference [a * 2^ea - b] of two floats, when it is an integer below
    [2^53], is computed without rounding. *)
Lemma float_sub_exact (a ea b : Z) :
  0 < a < 2 ^ 53 -> 0 <= ea <= 53 -> 0 < b < 2 ^ 53 ->
  0 <= a * 2 ^ ea - b < 2 ^ 53 ->
  float_sub (enc a ea) (enc b 0) = enc (a * 2 ^ ea - b) 0.
Proof.
  intros Ha Hea Hb Hc.
  destruct a as [|a|a]; try lia. destruct b as [|b|b]; try lia.
  rewrite !enc_pos. unfold float_sub, prec, emax. cbn [SFsub cond_Zopp].
  set (da := Zpos (digits2_pos a)). set (db := Zpos (digits2_pos b)).
  assert (Hda := digits_le_53 a ltac:(lia)). fold da in Hda.
  assert (Hdb := digits_le_53 b ltac:(lia)). fold db in Hdb.
  assert (Hda0 : 0 < da) by (unfold da; lia).
  assert (Hdb0 : 0 < db) by (unfold db; lia).
  assert (Hpa : 0 < 2 ^ (53 - da)) by (apply Z.pow_pos_nonneg; lia).
  assert (Hpb : 0 < 2 ^ (53 - db)) by (apply Z.pow_pos_nonneg; lia).
  set (ez := Z.min (ea - (53 - da)) (0 - (53 - db))).
  assert (Hez : -52 <= ez <= 0) by (unfold ez; lia).
  rewrite !shl_align_value by (unfold ez; lia). cbn [fst].
  assert (Hqa : 0 < 2 ^ (ea - (53 - da) - ez))
    by (apply Z.pow_pos_nonneg; unfold ez; lia).
  assert (Hqb : 0 < 2 ^ (0 - (53 - db) - ez))
    by (apply Z.pow_pos_nonneg; unfold ez; lia).
  rewrite !Z2Pos.id by nia.
  rewrite <- !Z.mul_assoc, <- !Z.pow_add_r by (unfold ez; lia).
  replace (53 - da + (ea - (53 - da) - ez)) with (ea + - ez) by lia.
  replace (53 - db + (0 - (53 - db) - ez)) with (- ez) by lia.
  rewrite Z.pow_add_r, Z.mul_assoc, <- Z.mul_sub_distr_r by lia.
  destruct (Zpos a * 2 ^ ea - Zpos b) as [|c|c] eqn:Ec; try lia.
  - reflexivity.
  - assert (Hdc := digits_le_53 c ltac:(lia)).
    assert (Hdc0 : 0 < Zpos (digits2_pos c)) by lia.
    rewrite binary_normalize_exact by (cbv zeta; lia).
    rewrite enc_pos. f_equal. lia.
Qed.

Lemma integer_value_enc (z : Z) :
  0 <= z < 2 ^ 53 -> integer_value (enc z 0) = Some z.
Proof.
  intros Hz. destruct z as [|c|c]; try lia; [reflexivity|].
  rewrite enc_pos. unfold integer_value.
  set (d := Zpos (digits2_pos c)).
  assert (Hd := digits_le_53 c ltac:(lia)). fold d in Hd.
  assert (Hd0 : 0 < d) by (unfold d; lia).
  assert (Hp : 0 < 2 ^ (53 - d)) by (apply Z.pow_pos_nonneg; lia).
  rewrite Z2Pos.id by nia.
  destruct (Z.eq_dec d 53) as [E|E].
  - rewrite E. change (53 - 53) with 0. change (0 - 0) with 0.
    rewrite Z.pow_0_r, !Z.mul_1_r. reflexivity.
  - replace (0 <=? 0 - (53 - d)) with false by (symmetry; apply Z.leb_gt; lia).
    replace (- (0 - (53 - d))) with (53 - d) by lia.
    rewrite Z_mod_mult, Z.eqb_refl, Z_div_mult by lia. reflexivity.
Qed.

Lemma half_enc : half = enc 1 (-1).
Proof. reflexivity. Qed.

(** *** Rounding an arbitrary integer: the result stays finite below 2^1023 *)

Lemma shr_1_m (mrs : shr_record) :
  0 <= shr_m mrs -> shr_m (shr_1 mrs) = shr_m mrs / 2.
Proof.
  destruct mrs as [m r s]. cbn [shr_m]. intros Hm.
  rewrite <- Z.div2_div.
  destruct m as [|[q|q|]|q]; try lia; reflexivity.
Qed.

Lemma iter_shr_1_m (n : nat) (mrs : shr_record) :
  0 <= shr_m mrs ->
  shr_m (Nat.iter n shr_1 mrs) = shr_m mrs / 2 ^ Z.of_nat n.
Proof.
  intros Hm. induction n as [|n IH].
  - simpl. rewrite Z.div_1_r. reflexivity.
  - rewrite Nat.iter_succ.
    assert (Hp : 0 < 2 ^ Z.of_nat n) by (apply Z.pow_pos_nonneg; lia).
    rewrite shr_1_m, IH.
    + rewrite Nat2Z.inj_succ, Z.pow_succ_r, Z.div_div by lia.
      f_equal. ring.
    + rewrite IH. apply Z.div_pos; lia.
Qed.

Lemma shr_spec (mrs : shr_record) (e n : Z) :
  0 <= n -> 0 <= shr_m mrs ->
  shr_m (fst (shr mrs e n)) = shr_m mrs / 2 ^ n /\ snd (shr mrs e n) = e + n.
Proof.
  intros Hn Hm. unfold shr. destruct n as [|q|q]; try lia; cbn [fst snd].
  - rewrite Z.div_1_r. lia.
  - rewrite iter_pos_nat, iter_shr_1_m, positive_nat_Z by assumption. lia.
Qed.

Lemma round_nearest_even_bounds (m : Z) (l : location) :
  m <= round_nearest_even m l <= m + 1.
Proof.
  unfold round_nearest_even.
  destruct l as [|[| |]]; try destruct (Z.even m); lia.
Qed.

Lemma div_pow2_bounds (m d : Z) :
  53 <= d -> 2 ^ (d - 1) <= m < 2 ^ d ->
  2 ^ 52 <= m / 2 ^ (d - 53) < 2 ^ 53.
Proof.
  intros Hd [Hl Hu].
  assert (Hp : 0 < 2 ^ (d - 53)) by (apply Z.pow_pos_nonneg; lia).
  split.
  - apply Z.div_le_lower_bound; [lia|].
    rewrite <- Z.pow_add_r by lia. replace (d - 53 + 52) with (d - 1) by lia.
    exact Hl.
  - apply Z.div_lt_upper_bound; [lia|].
    rewrite <- Z.pow_add_r by lia. replace (d - 53 + 53) with d by lia.
    exact Hu.
Qed.

Lemma shr_1_r (mrs : shr_record) :
  0 <= shr_m mrs -> shr_r (shr_1 mrs) = Z.odd (shr_m mrs).
Proof.
  destruct mrs as [m r s]. cbn [shr_m]. intros Hm.
  destruct m as [|[q|q|]|q]; try lia; reflexivity.
Qed.

Lemma iter_shr_1_nonneg (n : nat) (mrs : shr_record) :
  0 <= shr_m mrs -> 0 <= shr_m (Nat.iter n shr_1 mrs).
Proof.
  intros Hm. rewrite iter_shr_1_m by assumption.
  apply Z.div_pos; [assumption|]. apply Z.pow_pos_nonneg; lia.
Qed.

(** After [n >= 1] shifts the round bit is bit [n - 1] of the mantissa. *)
Lemma shr_round_bit (mrs : shr_record) (e n : Z) :
  0 < n -> 0 <= shr_m mrs ->
  shr_r (fst (shr mrs e n)) = Z.odd (shr_m mrs / 2 ^ (n - 1)).
Proof.
  intros Hn Hm. unfold shr. destruct n as [|q|q]; try lia. cbn [fst].
  rewrite iter_pos_nat.
  destruct (Pos.to_nat q) as [|k] eqn:Ek; [lia|].
  rewrite Nat.iter_succ, shr_1_r by (apply iter_shr_1_nonneg; assumption).
  rewrite iter_shr_1_m by assumption.
  do 3 f_equal. lia.
Qed.

Lemma round_nearest_even_down (m : Z) (s : bool) :
  round_nearest_even m
    (loc_of_shr_record (Build_shr_record m false s)) = m.
Proof. destruct s; reflexivity. Qed.

Lemma round_nearest_even_up (m : Z) (s : bool) :
  Z.odd m = true ->
  round_nearest_even m
    (loc_of_shr_record (Build_shr_record m true s)) = m + 1.
Proof.
  intros Hodd. destruct s; cbn [loc_of_shr_record round_nearest_even];
    [reflexivity|].
  rewrite <- Z.negb_odd, Hodd. reflexivity.
Qed.

(** Rounding a mantissa of more than 53 bits: the outcome in terms of the
    rounded mantissa [m2]. *)
Lemma binary_round_aux_large (s : bool) (m : positive) :
  let d := Zpos (digits2_pos m) in
  54 <= d ->
  exists (m2 : Z) (s1 : bool),
    m2 = round_nearest_even (Zpos m / 2 ^ (d - 53))
           (loc_of_shr_record
              (Build_shr_record (Zpos m / 2 ^ (d - 53))
                 (Z.odd (Zpos m / 2 ^ (d - 54))) s1))
    /\ 2 ^ 52 <= m2 <= 2 ^ 53
    /\ binary_round_aux 53 1024 s (Zpos m) 0 loc_Exact
       = if m2 =? 2 ^ 53 then
           if d - 52 <=? 971 then S754_finite s (2 ^ 52)%positive (d - 52)
           else S754_infinity s
         else
           if d - 53 <=? 971 then S754_finite s (Z.to_pos m2) (d - 53)
           else S754_infinity s.
Proof.
  intros d Hd. unfold binary_round_aux, shr_fexp.
  cbn [Zdigits2 shr_record_of_loc]. fold d.
  rewrite fexp_normal by lia.
  replace (d + 0 - 53 - 0) with (d - 53) by lia.
  destruct (shr_spec (Build_shr_record (Zpos m) false false) 0 (d - 53))
    as [Hm1 He1]; [lia|cbn [shr_m]; lia|].
  assert (Hr1 : shr_r (fst (shr (Build_shr_record (Zpos m) false false) 0
                             (d - 53)))
                = Z.odd (Zpos m / 2 ^ (d - 53 - 1)))
    by (apply shr_round_bit; [lia|cbn [shr_m]; lia]).
  destruct (shr (Build_shr_record (Zpos m) false false) 0 (d - 53))
    as [[m1 r1 s1] e1].
  cbn [fst snd shr_m shr_r] in Hm1, He1, Hr1.
  replace (d - 53 - 1) with (d - 54) in Hr1 by lia.
  assert (Hd53 : 53 <= d) by lia.
  assert (Hb1 := div_pow2_bounds _ _ Hd53 (digits_bounds m)).
  fold d in Hb1. rewrite <- Hm1 in Hb1.
  cbn [shr_m].
  set (m2 := round_nearest_even m1 (loc_of_shr_record (Build_shr_record m1 r1 s1))).
  assert (Hb2 : m1 <= m2 <= m1 + 1) by apply round_nearest_even_bounds.
  assert (H52 : 0 < 2 ^ 52) by (apply Z.pow_pos_nonneg; lia).
  exists m2, s1. split; [unfold m2; rewrite Hm1, Hr1; reflexivity|].
  split; [lia|]. subst e1.
  destruct (Z.eqb_spec m2 (2 ^ 53)) as [E53|N53].
  - rewrite E53. change (2 ^ 53) with (Zpos (2 ^ 53)%positive).
    cbn [Zdigits2].
    replace (Zpos (digits2_pos (2 ^ 53))) with 54 by reflexivity.
    rewrite fexp_normal by lia.
    replace (54 + (0 + (d - 53)) - 53 - (0 + (d - 53))) with 1 by lia.
    cbn [shr SpecFloat.iter_pos shr_1 shr_m].
    replace (0 + (d - 53) + 1) with (d - 52) by lia.
    reflexivity.
  - destruct m2 as [|q|q] eqn:Eq; try lia.
    cbn [Zdigits2].
    assert (Hq : Zpos (digits2_pos q) = 53).
    { apply digits_unique. change (53 - 1) with 52. lia. }
    rewrite Hq, fexp_normal by lia.
    replace (53 + (0 + (d - 53)) - 53 - (0 + (d - 53))) with 0 by lia.
    cbn [shr shr_m]. replace (0 + (d - 53)) with (d - 53) by lia.
    reflexivity.
Qed.

Lemma digits_ge (m : positive) (d : Z) :
  2 ^ (d - 1) <= Zpos m -> d <= Zpos (digits2_pos m).
Proof.
  intros H. destruct (digits_bounds m) as [_ Hu].
  destruct (Z_le_gt_dec d (Zpos (digits2_pos m))) as [|Hgt]; [assumption|].
  assert (2 ^ Zpos (digits2_pos m) <= 2 ^ (d - 1))
    by (apply Z.pow_le_mono_r; lia).
  lia.
Qed.

Lemma digits_le (m : positive) (d : Z) :
  0 <= d -> Zpos m < 2 ^ d -> Zpos (digits2_pos m) <= d.
Proof.
  intros Hd H. destruct (digits_bounds m) as [Hl _].
  destruct (Z_le_gt_dec (Zpos (digits2_pos m)) d) as [|Hgt]; [assumption|].
  assert (2 ^ d <= 2 ^ (Zpos (digits2_pos m) - 1))
    by (apply Z.pow_le_mono_r; lia).
  lia.
Qed.

Lemma float_of_int_large (m : positive) :
  54 <= Zpos (digits2_pos m) ->
  float_of_int (Zpos m)
  = match binary_round_aux 53 1024 false (Zpos m) 0 loc_Exact with
    | S754_infinity _ => Raise OverflowError
    | f => Ok f
    end.
Proof.
  intros Hd. unfold float_of_int, prec, emax. cbn [binary_normalize].
  unfold binary_round. rewrite fexp_normal by lia.
  unfold shl_align.
  destruct (Zpos (digits2_pos m) + 0 - 53 - 0) as [|q|q] eqn:E; try lia.
  reflexivity.
Qed.

(** The conversion of a nonnegative integer overflows exactly from
    [2^1024 - 2^970] on. *)
Lemma float_of_int_overflow (z : Z) :
  int_overflow <= z -> float_of_int z = Raise OverflowError.
Proof.
  intros Hz. unfold int_overflow in Hz.
  assert (HT : 2 ^ 1024 - 2 ^ 970 = 2 ^ 970 * (2 ^ 54 - 1)) by reflexivity.
  assert (H1023 : 2 ^ (1024 - 1) <= 2 ^ 1024 - 2 ^ 970) by (vm_compute; discriminate).
  destruct z as [|m|m]; try (vm_compute in Hz; congruence).
  assert (Hd : 1024 <= Zpos (digits2_pos m)) by (apply digits_ge; lia).
  rewrite float_of_int_large by lia.
  destruct (binary_round_aux_large false m ltac:(lia)) as (m2 & s1 & Em2 & Hb & ->).
  set (d := Zpos (digits2_pos m)) in *.
  destruct (Z.eq_dec d 1024) as [E|N].
  - (* 1024 bits: the mantissa rounds up to 2^53 *)
    assert (Hq : Zpos m / 2 ^ (d - 54) = 2 ^ 54 - 1).
    { rewrite E. change (1024 - 54) with 970.
      destruct (digits_bounds m) as [_ Hu]. fold d in Hu. rewrite E in Hu.
      assert (2 ^ 54 - 1 <= Zpos m / 2 ^ 970)
        by (apply Z.div_le_lower_bound; [reflexivity|lia]).
      assert (Zpos m / 2 ^ 970 < 2 ^ 54)
        by (apply Z.div_lt_upper_bound; [reflexivity|];
            change (2 ^ 970 * 2 ^ 54) with (2 ^ 1024); lia).
      lia. }
    assert (Hm1 : Zpos m / 2 ^ (d - 53) = 2 ^ 53 - 1).
    { replace (2 ^ (d - 53)) with (2 ^ (d - 54) * 2)
        by (rewrite E; reflexivity).
      rewrite <- Z.div_div, Hq by (rewrite ?E; try reflexivity; lia).
      reflexivity. }
    rewrite Hq, Hm1 in Em2.
    change (Z.odd (2 ^ 54 - 1)) with true in Em2.
    rewrite round_nearest_even_up in Em2 by reflexivity.
    replace m2 with (2 ^ 53) by (rewrite Em2; reflexivity).
    rewrite Z.eqb_refl, E. reflexivity.
  - assert (Hd' : 1025 <= d) by lia.
    replace (d - 52 <=? 971) with false by (symmetry; apply Z.leb_gt; lia).
    replace (d - 53 <=? 971) with false by (symmetry; apply Z.leb_gt; lia).
    destruct (m2 =? 2 ^ 53); reflexivity.
Qed.

Lemma float_of_int_ok (z : Z) :
  0 <= z < int_overflow -> exists f, float_of_int z = Ok f.
Proof.
  intros Hz. unfold int_overflow in Hz.
  destruct (Z_lt_le_dec z (2 ^ 53)) as [Hlt|Hge].
  { exists (enc z 0). apply float_of_int_exact. lia. }
  assert (HT : 2 ^ 1024 - 2 ^ 970 = 2 ^ 970 * (2 ^ 54 - 1)) by reflexivity.
  assert (H53 : 0 < 2 ^ 53) by reflexivity.
  destruct z as [|m|m]; try lia.
  assert (Hd : 54 <= Zpos (digits2_pos m))
    by (apply digits_ge; change (54 - 1) with 53; lia).
  assert (Hd' : Zpos (digits2_pos m) <= 1024).
  { apply digits_le; [lia|].
    assert (2 ^ 1024 - 2 ^ 970 < 2 ^ 1024) by reflexivity. lia. }
  rewrite float_of_int_large by lia.
  destruct (binary_round_aux_large false m ltac:(lia)) as (m2 & s1 & Em2 & Hb & ->).
  set (d := Zpos (digits2_pos m)) in *.
  assert (Hm2 : d = 1024 -> m2 <> 2 ^ 53).
  { intros E. rewrite E in Em2.
    change (1024 - 54) with 970 in Em2. change (1024 - 53) with 971 in Em2.
    assert (Hq : Zpos m / 2 ^ 970 <= 2 ^ 54 - 2).
    { assert (Zpos m / 2 ^ 970 < 2 ^ 54 - 1)
        by (apply Z.div_lt_upper_bound; [reflexivity|lia]).
      lia. }
    assert (Hm1 : Zpos m / 2 ^ 971 = Zpos m / 2 ^ 970 / 2)
      by (rewrite Z.div_div by (try reflexivity; lia); reflexivity).
    set (q := Zpos m / 2 ^ 970) in *.
    assert (Hdm := Z.div_mod q 2 ltac:(lia)).
    assert (Hmod := Z.mod_pos_bound q 2 ltac:(lia)).
    destruct (Z.odd q) eqn:Eodd.
    - rewrite Zmod_odd, Eodd in Hdm.
      assert (round_nearest_even (Zpos m / 2 ^ 971)
                (loc_of_shr_record
                   (Build_shr_record (Zpos m / 2 ^ 971) true s1))
              <= Zpos m / 2 ^ 971 + 1) by apply round_nearest_even_bounds.
      assert (Hc : 2 ^ 53 = 9007199254740992) by reflexivity.
      assert (Hc' : 2 ^ 54 = 18014398509481984) by reflexivity.
      lia.
    - rewrite round_nearest_even_down in Em2.
      assert (Hc : 2 ^ 53 = 9007199254740992) by reflexivity.
      assert (Hc' : 2 ^ 54 = 18014398509481984) by reflexivity.
      lia. }
  destruct (Z.eqb_spec m2 (2 ^ 53)) as [E53|N53].
  - replace (d - 52 <=? 971) with true
      by (symmetry; apply Z.leb_le; destruct (Z.eq_dec d 1024); [tauto|lia]).
    eauto.
  - replace (d - 53 <=? 971) with true by (symmetry; apply Z.leb_le; lia).
    eauto.
Qed.

(** Every integer up to [2^53] converts exactly. *)
Lemma float_of_int_exact_le (z : Z) :
  0 < z <= 2 ^ 53 ->
  exists a ea,
    float_of_int z = Ok (enc a ea) /\ z = a * 2 ^ ea /\
    0 < a < 2 ^ 53 /\ 0 <= ea <= 53 /\ (z < 2 ^ 53 -> a = z /\ ea = 0).
Proof.
  intros Hz. destruct (Z.eq_dec z (2 ^ 53)) as [->|N].
  - exists 1, 53. repeat split; try reflexivity; lia.
  - exists z, 0. rewrite float_of_int_exact, Z.pow_0_r by lia.
    repeat split; lia.
Qed.

End Binary64Facts.

(** ** Facts about construction *)

Section InitFacts.

Local Open Scope Z_scope.

Lemma triangular_even (p : Z) : p * (p + 1) = (p * (p + 1) / 2) * 2.
Proof.
  assert (H : (p * (p + 1)) mod 2 = 0).
  { rewrite Z.mul_mod, Z.add_mod by lia.
    assert (Hp : 0 <= p mod 2 < 2) by (apply Z.mod_pos_bound; lia).
    assert (Hc : p mod 2 = 0 \/ p mod 2 = 1) by lia.
    destruct Hc as [-> | ->]; reflexivity. }
  rewrite (Z.div_mod (p * (p + 1)) 2) at 1 by lia. lia.
Qed.

Lemma triangular_bounds (n p : Z) :
  1 <= p <= n -> 0 < p * (p + 1) / 2 <= n * p.
Proof.
  intros H. assert (E := triangular_even p).
  assert (p * (p + 1) <= 2 * (n * p)) by nia.
  assert (2 <= p * (p + 1)) by nia.
  lia.
Qed.

Lemma triangular_lt (n p : Z) :
  1 <= p <= n -> 2 <= n -> p * (p + 1) / 2 < n * p.
Proof.
  intros Hp Hn. assert (E := triangular_even p).
  assert (p * (p + 1) < 2 * (n * p)) by nia. lia.
Qed.

(** On inputs whose scaled product stays within [2^53], no operation of
    the dimension formula rounds. *)
Lemma dim_of_exact (n p k : Z) :
  1 <= p <= n -> 1 <= k -> k * (n * p) <= 2 ^ 53 ->
  dim_of n p k = Ok (enc (k * (n * p - p * (p + 1) / 2)) 0).
Proof.
  intros Hp Hk Hb.
  assert (H53 : 2 ^ 53 = 9007199254740992) by reflexivity.
  assert (Ht := triangular_bounds n p Hp).
  assert (Et := triangular_even p).
  assert (Hnp : n * p <= 2 ^ 53) by nia.
  assert (Hk53 : k <= 2 ^ 53) by nia.
  destruct (Z.eq_dec n 1) as [En|Nn].
  - (* St(1, 1)^k: the dimension is 0 *)
    assert (p = 1) by lia. subst n p.
    unfold dim_of, float_mul_int, int_sub_float, int_mul_float.
    change (float_of_int 1) with (Ok (enc 1 0)).
    change (float_of_int (1 + 1)) with (Ok (enc 2 0)).
    change (float_of_int (1 * 1)) with (Ok (enc 1 0)). cbn [bind].
    change (float_sub (enc 1 0) (float_mul (float_mul half (enc 1 0)) (enc 2 0)))
      with (enc 0 0).
    destruct (float_of_int_exact_le k ltac:(lia)) as (a & ea & -> & _ & Ha & _).
    cbn [bind]. rewrite float_mul_zero_r by lia.
    change (1 * 1 - 1 * (1 + 1) / 2) with 0. rewrite Z.mul_0_r. reflexivity.
  - assert (Htl := triangular_lt n p Hp ltac:(lia)).
    set (t := p * (p + 1) / 2) in *.
    assert (Hp1 : p + 1 < 2 ^ 53) by nia.
    assert (Hklt : k < 2 ^ 53) by nia.
    unfold dim_of, float_mul_int, int_sub_float, int_mul_float.
    rewrite (float_of_int_exact p), (float_of_int_exact (p + 1)),
      (float_of_int_exact k) by lia.
    destruct (float_of_int_exact_le (n * p) ltac:(nia))
      as (a & ea & -> & Ea & Ha & Hea & _).
    cbn [bind]. rewrite half_enc.
    rewrite (float_mul_exact 1 p p (-1) 0 0) by (try rewrite Z.pow_0_r; lia).
    rewrite (float_mul_exact p (p + 1) t (-1 + 0 + 0) 0 1)
      by (try rewrite Z.pow_1_r; lia).
    change (-1 + 0 + 0 + 0 + 1) with 0.
    rewrite float_sub_exact by lia. rewrite <- Ea.
    rewrite (float_mul_exact k (n * p - t) (k * (n * p - t)) 0 0 0)
      by (try rewrite Z.pow_0_r; nia).
    reflexivity.
Qed.

Lemma float_of_int_raise (z : Z) (e : exn) :
  float_of_int z = Raise e -> e = OverflowError.
Proof.
  unfold float_of_int.
  destruct (binary_normalize prec emax z 0 false); intros H;
    try discriminate; injection H as <-; reflexivity.
Qed.

Lemma dim_of_raise (n p k : Z) (e : exn) :
  dim_of n p k = Raise e -> e = OverflowError.
Proof.
  unfold dim_of, float_mul_int, int_sub_float, int_mul_float.
  destruct (float_of_int p) eqn:E1; cbn [bind];
    [|intros H; injection H as <-; eapply float_of_int_raise; eassumption].
  destruct (float_of_int (p + 1)) eqn:E2; cbn [bind];
    [|intros H; injection H as <-; eapply float_of_int_raise; eassumption].
  destruct (float_of_int (n * p)) eqn:E3; cbn [bind];
    [|intros H; injection H as <-; eapply float_of_int_raise; eassumption].
  destruct (float_of_int k) eqn:E4; cbn [bind];
    [discriminate|intros H; injection H as <-; eapply float_of_int_raise; eassumption].
Qed.

Lemma dim_of_overflow (n p k : Z) :
  int_overflow <= n * p \/ int_overflow <= k ->
  dim_of n p k = Raise OverflowError.
Proof.
  intros H. unfold dim_of, float_mul_int, int_sub_float, int_mul_float.
  destruct (float_of_int p) eqn:E1; cbn [bind];
    [|f_equal; eapply float_of_int_raise; eassumption].
  destruct (float_of_int (p + 1)) eqn:E2; cbn [bind];
    [|f_equal; eapply float_of_int_raise; eassumption].
  destruct (float_of_int (n * p)) eqn:E3; cbn [bind];
    [|f_equal; eapply float_of_int_raise; eassumption].
  destruct (float_of_int k) eqn:E4; cbn [bind];
    [|f_equal; eapply float_of_int_raise; eassumption].
  destruct H as [H|H]; apply float_of_int_overflow in H; congruence.
Qed.

Lemma dim_of_ok (n p k : Z) :
  1 <= p <= n -> 1 <= k -> n * p < int_overflow -> k < int_overflow ->
  exists d, dim_of n p k = Ok d.
Proof.
  intros Hp Hk Hnp Hkb.
  assert (H2 : 2 < int_overflow) by reflexivity.
  unfold dim_of, float_mul_int, int_sub_float, int_mul_float.
  destruct (float_of_int_ok p) as [a ->]; [nia|].
  destruct (float_of_int_ok (p + 1)) as [b ->]; [nia|].
  destruct (float_of_int_ok (n * p)) as [c ->]; [nia|].
  destruct (float_of_int_ok k) as [d ->]; [lia|].
  cbn [bind]. eauto.
Qed.

Lemma name_of_defined (n p k : Z) :
  1 <= k -> exists s, name_of n p k = Some s.
Proof.
  intros Hk. unfold name_of.
  destruct (k =? 1) eqn:E1; [eauto|].
  destruct (k >=? 2) eqn:E2; [eauto|].
  apply Z.eqb_neq in E1. rewrite Z.geb_leb in E2. apply Z.leb_gt in E2. lia.
Qed.

Lemma init_guard (n p k : Z) :
  (exists msg, __init__ n p k = Raise (ValueError msg))
  <-> (n < p \/ p < 1 \/ k < 1).
Proof.
  unfold __init__. split.
  - intros [msg H].
    destruct (n <? p) eqn:E1; [apply Z.ltb_lt in E1; lia|].
    destruct (p <? 1) eqn:E2; [apply Z.ltb_lt in E2; lia|].
    destruct (k <? 1) eqn:E3; [apply Z.ltb_lt in E3; lia|].
    cbn [orb] in H.
    destruct (dim_of n p k) as [d|e] eqn:Ed; cbn [bind] in H; [discriminate|].
    apply dim_of_raise in Ed. subst e. discriminate.
  - intros H.
    destruct (n <? p) eqn:E1; cbn [orb]; [eauto|].
    destruct (p <? 1) eqn:E2; cbn [orb]; [eauto|].
    destruct (k <? 1) eqn:E3; [eauto|].
    apply Z.ltb_ge in E1, E2, E3. lia.
Qed.

Lemma init_valid (n p k : Z) :
  1 <= p <= n -> 1 <= k ->
  __init__ n p k =
  (d <- dim_of n p k ;;
   Ok {| _n := n; _p := p; _k := k; _dim := d; _name := name_of n p k |}).
Proof.
  intros Hp Hk. unfold __init__.
  replace (n <? p) with false by (symmetry; apply Z.ltb_ge; lia).
  replace (p <? 1) with false by (symmetry; apply Z.ltb_ge; lia).
  replace (k <? 1) with false by (symmetry; apply Z.ltb_ge; lia).
  reflexivity.
Qed.

End InitFacts.

(** ** Facts about sums and shapes *)

Section SumFacts.

Lemma sum_n_ext (n : nat) (f g : nat -> R) :
  (forall l, (l < n)%nat -> f l = g l) -> sum_n n f = sum_n n g.
Proof.
  induction n as [|n IH]; intros H; simpl; [reflexivity|].
  rewrite IH, H by (intros; try apply H; lia). reflexivity.
Qed.

Lemma sum_n_zero (n : nat) : sum_n n (fun _ => 0) = 0.
Proof. induction n as [|n IH]; simpl; [|rewrite IH]; lra. Qed.

Lemma sum_n_plus (n : nat) (f g : nat -> R) :
  sum_n n (fun l => f l + g l) = sum_n n f + sum_n n g.
Proof. induction n as [|n IH]; simpl; [|rewrite IH]; lra. Qed.

Lemma sum_n_minus (n : nat) (f g : nat -> R) :
  sum_n n (fun l => f l - g l) = sum_n n f - sum_n n g.
Proof. induction n as [|n IH]; simpl; [|rewrite IH]; lra. Qed.

Lemma sum_n_scal_l (n : nat) (c : R) (f : nat -> R) :
  sum_n n (fun l => c * f l) = c * sum_n n f.
Proof. induction n as [|n IH]; simpl; [|rewrite IH]; lra. Qed.

Lemma sum_n_scal_r (n : nat) (c : R) (f : nat -> R) :
  sum_n n (fun l => f l * c) = sum_n n f * c.
Proof. induction n as [|n IH]; simpl; [|rewrite IH]; lra. Qed.

Lemma sum_n_swap (n m : nat) (f : nat -> nat -> R) :
  sum_n n (fun i => sum_n m (fun j => f i j))
  = sum_n m (fun j => sum_n n (fun i => f i j)).
Proof.
  induction n as [|n IH]; simpl.
  - rewrite sum_n_zero. reflexivity.
  - rewrite IH, <- sum_n_plus. reflexivity.
Qed.

(** The sum against a Kronecker delta selects one term. *)
Lemma sum_n_delta (n i : nat) (f : nat -> R) :
  (i < n)%nat ->
  sum_n n (fun l => (if Nat.eqb i l then 1 else 0) * f l) = f i.
Proof.
  induction n as [|n IH]; intros Hi; [lia|]. simpl.
  destruct (Nat.eqb_spec i n) as [->|Hne].
  - rewrite (sum_n_ext n _ (fun _ => 0)), sum_n_zero; [lra|].
    intros l Hl. destruct (Nat.eqb_spec n l); [lia|lra].
  - rewrite IH by lia. lra.
Qed.

End SumFacts.

Section ShapeFacts.

Lemma mk_shape (n p : nat) (f : nat -> nat -> R) : has_shape n p (mk n p f).
Proof.
  unfold has_shape, mk. split.
  - rewrite length_map, length_seq. reflexivity.
  - apply Forall_forall. intros r Hr. apply in_map_iff in Hr.
    destruct Hr as [i [<- _]]. rewrite length_map, length_seq. reflexivity.
Qed.

Lemma get_mk (n p : nat) (f : nat -> nat -> R) (i j : nat) :
  (i < n)%nat -> (j < p)%nat -> get (mk n p f) i j = f i j.
Proof.
  intros Hi Hj. unfold get, mk.
  rewrite (nth_indep _ [] (map (fun j => f 0%nat j) (seq 0 p)))
    by (rewrite length_map, length_seq; exact Hi).
  rewrite (map_nth (fun i => map (fun j => f i j) (seq 0 p)) (seq 0 n) 0%nat i).
  rewrite seq_nth by exact Hi. simpl.
  rewrite (nth_indep _ 0 (f i 0%nat))
    by (rewrite length_map, length_seq; exact Hj).
  rewrite (map_nth (fun j => f i j) (seq 0 p) 0%nat j).
  rewrite seq_nth by exact Hj. reflexivity.
Qed.

Lemma nrows_shape (n p : nat) (A : matrix) : has_shape n p A -> nrows A = n.
Proof. intros [H _]. exact H. Qed.

Lemma ncols_shape (n p : nat) (A : matrix) :
  has_shape n p A -> (0 < n)%nat -> ncols A = p.
Proof.
  intros [Hn Hr] Hpos. unfold ncols. destruct A as [|r A]; simpl in *; [lia|].
  inversion Hr; assumption.
Qed.

Lemma row_length (n p : nat) (A : matrix) (i : nat) :
  has_shape n p A -> (i < n)%nat -> List.length (nth i A []) = p.
Proof.
  intros [Hn Hr] Hi. rewrite Forall_forall in Hr. apply Hr, nth_In. lia.
Qed.

(** Two arrays of one shape with the same entries are equal. *)
Lemma shape_ext (n p : nat) (A B : matrix) :
  has_shape n p A -> has_shape n p B ->
  (forall i j, (i < n)%nat -> (j < p)%nat -> get A i j = get B i j) ->
  A = B.
Proof.
  intros HA HB H.
  apply (nth_ext A B [] []).
  - destruct HA, HB. congruence.
  - intros i Hi. assert (Hi' : (i < n)%nat) by (destruct HA; lia).
    apply (nth_ext _ _ 0 0).
    + rewrite (row_length n p A), (row_length n p B) by assumption. reflexivity.
    + intros j Hj. rewrite (row_length n p A) in Hj by assumption.
      apply H; assumption.
Qed.

End ShapeFacts.

(** ** Facts about the array operations *)

Create HintDb shape.

Section OpFacts.

Variables n m p : nat.
Hypothesis n_pos : (0 < n)%nat.
Hypothesis m_pos : (0 < m)%nat.

Lemma dot_shape (A B : matrix) :
  has_shape n m A -> has_shape m p B -> has_shape n p (dot A B).
Proof.
  intros HA HB. unfold dot.
  rewrite (nrows_shape n m A HA), (ncols_shape m p B HB m_pos).
  apply mk_shape.
Qed.

Lemma get_dot (A B : matrix) (i j : nat) :
  has_shape n m A -> has_shape m p B -> (i < n)%nat -> (j < p)%nat ->
  get (dot A B) i j = sum_n m (fun l => get A i l * get B l j).
Proof.
  intros HA HB Hi Hj. unfold dot.
  rewrite (nrows_shape n m A HA), (ncols_shape m p B HB m_pos),
    (ncols_shape n m A HA n_pos).
  rewrite get_mk by assumption. reflexivity.
Qed.

Lemma T_shape (A : matrix) : has_shape n m A -> has_shape m n (T A).
Proof.
  intros HA. unfold T.
  rewrite (nrows_shape n m A HA), (ncols_shape n m A HA n_pos).
  apply mk_shape.
Qed.

Lemma get_T (A : matrix) (i j : nat) :
  has_shape n m A -> (i < m)%nat -> (j < n)%nat ->
  get (T A) i j = get A j i.
Proof.
  intros HA Hi Hj. unfold T.
  rewrite (nrows_shape n m A HA), (ncols_shape n m A HA n_pos).
  rewrite get_mk by assumption. reflexivity.
Qed.

Lemma madd_shape (A B : matrix) : has_shape n m A -> has_shape n m (madd A B).
Proof.
  intros HA. unfold madd.
  rewrite (nrows_shape n m A HA), (ncols_shape n m A HA n_pos).
  apply mk_shape.
Qed.

Lemma get_madd (A B : matrix) (i j : nat) :
  has_shape n m A -> (i < n)%nat -> (j < m)%nat ->
  get (madd A B) i j = get A i j + get B i j.
Proof.
  intros HA Hi Hj. unfold madd.
  rewrite (nrows_shape n m A HA), (ncols_shape n m A HA n_pos).
  rewrite get_mk by assumption. reflexivity.
Qed.

Lemma msub_shape (A B : matrix) : has_shape n m A -> has_shape n m (msub A B).
Proof.
  intros HA. unfold msub.
  rewrite (nrows_shape n m A HA), (ncols_shape n m A HA n_pos).
  apply mk_shape.
Qed.

Lemma get_msub (A B : matrix) (i j : nat) :
  has_shape n m A -> (i < n)%nat -> (j < m)%nat ->
  get (msub A B) i j = get A i j - get B i j.
Proof.
  intros HA Hi Hj. unfold msub.
  rewrite (nrows_shape n m A HA), (ncols_shape n m A HA n_pos).
  rewrite get_mk by assumption. reflexivity.
Qed.

Lemma map_map_shape (f : R -> R) (A : matrix) :
  has_shape n m A -> has_shape n m (map (map f) A).
Proof.
  intros [Hn Hr]. split.
  - rewrite length_map. exact Hn.
  - apply Forall_map. eapply Forall_impl; [|exact Hr].
    intros r Hlen. simpl. rewrite length_map. exact Hlen.
Qed.

Lemma get_map_map (f : R -> R) (A : matrix) (i j : nat) :
  has_shape n m A -> (i < n)%nat -> (j < m)%nat ->
  get (map (map f) A) i j = f (get A i j).
Proof.
  intros HA Hi Hj. unfold get.
  assert (Hlen : List.length A = n) by (destruct HA; assumption).
  rewrite (nth_indep _ [] (map f [])) by (rewrite length_map; lia).
  rewrite (map_nth (map f) A [] i).
  rewrite (nth_indep _ 0 (f 0))
    by (rewrite length_map, (row_length n m A i HA Hi); exact Hj).
  apply map_nth.
Qed.

Lemma mdiv_shape (A : matrix) (c : R) :
  has_shape n m A -> has_shape n m (mdiv A c).
Proof. apply map_map_shape. Qed.

Lemma get_mdiv (A : matrix) (c : R) (i j : nat) :
  has_shape n m A -> (i < n)%nat -> (j < m)%nat ->
  get (mdiv A c) i j = get A i j / c.
Proof. intros. unfold mdiv. rewrite get_map_map by assumption. reflexivity. Qed.

End OpFacts.

Lemma eye_shape (p : nat) : has_shape p p (eye p).
Proof. apply mk_shape. Qed.

Lemma zeros_shape (n p : nat) : has_shape n p (zeros n p).
Proof. apply mk_shape. Qed.

Lemma get_eye (p i j : nat) :
  (i < p)%nat -> (j < p)%nat -> get (eye p) i j = if Nat.eqb i j then 1 else 0.
Proof. intros. unfold eye. rewrite get_mk by assumption. reflexivity. Qed.

Lemma get_zeros (n p i j : nat) :
  (i < n)%nat -> (j < p)%nat -> get (zeros n p) i j = 0.
Proof. intros. unfold zeros. rewrite get_mk by assumption. reflexivity. Qed.

Lemma sym_shape (p : nat) (M : matrix) :
  (0 < p)%nat -> has_shape p p M -> has_shape p p (sym M).
Proof.
  intros Hp HM. unfold sym.
  apply mdiv_shape, madd_shape; assumption.
Qed.

Lemma get_sym (p : nat) (M : matrix) (i j : nat) :
  (0 < p)%nat -> has_shape p p M -> (i < p)%nat -> (j < p)%nat ->
  get (sym M) i j = (get M i j + get M j i) / 2.
Proof.
  intros Hp HM Hi Hj. unfold sym.
  rewrite (get_mdiv p p), (get_madd p p), (get_T p p)
    by (try apply madd_shape; assumption).
  reflexivity.
Qed.

#[export] Hint Resolve dot_shape T_shape madd_shape msub_shape mdiv_shape
  eye_shape zeros_shape sym_shape mk_shape : shape.

(** *** Matrix algebra *)

Section Algebra.

Variables n m p q : nat.
Hypothesis n_pos : (0 < n)%nat.
Hypothesis m_pos : (0 < m)%nat.
Hypothesis p_pos : (0 < p)%nat.

Lemma T_involutive (A : matrix) : has_shape n m A -> T (T A) = A.
Proof.
  intros HA. apply (shape_ext n m); eauto with shape.
  intros i j Hi Hj.
  rewrite (get_T m n), (get_T n m); eauto with shape.
Qed.

Lemma T_dot (A B : matrix) :
  has_shape n m A -> has_shape m p B ->
  T (dot A B) = dot (T B) (T A).
Proof.
  intros HA HB. apply (shape_ext p n); eauto with shape.
  intros i j Hi Hj.
  rewrite (get_T n p), (get_dot n m p), (get_dot p m n); eauto with shape.
  apply sum_n_ext. intros l Hl.
  rewrite (get_T m p), (get_T n m); eauto with shape. lra.
Qed.

Lemma dot_assoc (A B C : matrix) :
  has_shape n m A -> has_shape m p B -> has_shape p q C ->
  dot (dot A B) C = dot A (dot B C).
Proof.
  intros HA HB HC. apply (shape_ext n q); eauto with shape.
  intros i j Hi Hj.
  rewrite (get_dot n p q), (get_dot n m q); eauto with shape.
  transitivity
    (sum_n p (fun l => sum_n m (fun l' => get A i l' * get B l' l * get C l j))).
  - apply sum_n_ext. intros l Hl.
    rewrite (get_dot n m p), <- sum_n_scal_r; auto.
  - rewrite sum_n_swap. apply sum_n_ext. intros l Hl.
    rewrite (get_dot m p q), <- sum_n_scal_l; auto.
    apply sum_n_ext. intros l' Hl'. lra.
Qed.

Lemma dot_msub_r (A B C : matrix) :
  has_shape n m A -> has_shape m p B -> has_shape m p C ->
  dot A (msub B C) = msub (dot A B) (dot A C).
Proof.
  intros HA HB HC. apply (shape_ext n p); eauto with shape.
  intros i j Hi Hj.
  rewrite (get_msub n p), !(get_dot n m p); eauto with shape.
  rewrite <- sum_n_minus. apply sum_n_ext. intros l Hl.
  rewrite (get_msub m p); auto. lra.
Qed.

Lemma dot_mdiv_r (A B : matrix) (c : R) :
  has_shape n m A -> has_shape m p B ->
  dot A (mdiv B c) = mdiv (dot A B) c.
Proof.
  intros HA HB. apply (shape_ext n p); eauto with shape.
  intros i j Hi Hj.
  rewrite (get_mdiv n p), !(get_dot n m p); eauto with shape.
  unfold Rdiv. rewrite <- sum_n_scal_r. apply sum_n_ext. intros l Hl.
  rewrite (get_mdiv m p); auto. unfold Rdiv. lra.
Qed.

Lemma dot_eye_l (A : matrix) : has_shape m p A -> dot (eye m) A = A.
Proof.
  intros HA. apply (shape_ext m p); eauto with shape.
  intros i j Hi Hj.
  rewrite (get_dot m m p); eauto with shape.
  rewrite (sum_n_ext m _ (fun l => (if Nat.eqb i l then 1 else 0) * get A l j)).
  - apply (sum_n_delta m i (fun l => get A l j)). exact Hi.
  - intros l Hl. rewrite get_eye by assumption. reflexivity.
Qed.

Lemma dot_zeros_r (A : matrix) :
  has_shape n m A -> dot A (zeros m p) = zeros n p.
Proof.
  intros HA. apply (shape_ext n p); eauto with shape.
  intros i j Hi Hj.
  rewrite (get_dot n m p), get_zeros; eauto with shape.
  rewrite (sum_n_ext m _ (fun _ => 0)); [apply sum_n_zero|].
  intros l Hl. rewrite get_zeros by assumption. lra.
Qed.

Lemma msub_zeros_r (A : matrix) :
  has_shape n m A -> msub A (zeros n m) = A.
Proof.
  intros HA. apply (shape_ext n m); eauto with shape.
  intros i j Hi Hj.
  rewrite (get_msub n m), get_zeros; auto. lra.
Qed.

End Algebra.

(** ** Facts about slices *)

Lemma slices_inj (b : bool) (A B : ndarray b) : slices A = slices B -> A = B.
Proof. destruct b; simpl; intros H; [injection H; auto|exact H]. Qed.


Section SliceFacts.

Lemma slices_map_slices (b : bool) (f : matrix -> matrix) (A : ndarray b) :
  slices (map_slices f A) = map f (slices A).
Proof. destruct b; reflexivity. Qed.

Lemma slices_zip_slices (b : bool) (f : matrix -> matrix -> matrix)
  (A B : ndarray b) :
  slices (zip_slices f A B) = map2 f (slices A) (slices B).
Proof. destruct b; reflexivity. Qed.

Lemma map2_map_l {A A' B C : Type} (f : A' -> B -> C) (g : A -> A')
  (l1 : list A) (l2 : list B) :
  map2 f (map g l1) l2 = map2 (fun a b => f (g a) b) l1 l2.
Proof.
  revert l2. induction l1 as [|a l1 IH]; intros [|b l2]; simpl;
    try rewrite IH; reflexivity.
Qed.

Lemma map_map2 {A B C D : Type} (g : C -> D) (f : A -> B -> C)
  (l1 : list A) (l2 : list B) :
  map g (map2 f l1 l2) = map2 (fun a b => g (f a b)) l1 l2.
Proof.
  revert l2. induction l1 as [|a l1 IH]; intros [|b l2]; simpl;
    try rewrite IH; reflexivity.
Qed.

End SliceFacts.

(** ** Facts about the projection *)

Section ProjFacts.

Variables n p : nat.
Hypothesis n_pos : (0 < n)%nat.
Hypothesis p_pos : (0 < p)%nat.

Lemma proj_code_spec (X U : matrix) :
  has_shape n p X -> has_shape n p U -> proj_code X U = proj_spec X U.
Proof.
  intros HX HU. unfold proj_code, proj_spec, sym.
  rewrite (T_dot p n p), (T_involutive n p) by eauto with shape.
  rewrite (dot_mdiv_r n p p) by eauto with shape.
  reflexivity.
Qed.

Lemma proj_spec_shape (X U : matrix) :
  has_shape n p X -> has_shape n p U -> has_shape n p (proj_spec X U).
Proof. intros HX HU. unfold proj_spec. eauto with shape. Qed.

Lemma sym_msub_self (A : matrix) :
  has_shape p p A -> sym (msub A (sym A)) = zeros p p.
Proof.
  intros HA. apply (shape_ext p p); eauto with shape.
  intros i j Hi Hj.
  rewrite (get_sym p), !(get_msub p p), !(get_sym p), get_zeros
    by eauto with shape.
  lra.
Qed.

(** Idempotence at a base point with orthonormal columns. *)
Lemma proj_spec_idempotent (X U : matrix) :
  has_shape n p X -> has_shape n p U -> dot (T X) X = eye p ->
  proj_spec X (proj_spec X U) = proj_spec X U.
Proof.
  intros HX HU Horth.
  unfold proj_spec at 1.
  assert (HS : has_shape p p (sym (dot (T X) U))) by eauto with shape.
  assert (E : dot (T X) (proj_spec X U)
              = msub (dot (T X) U) (sym (dot (T X) U))).
  { unfold proj_spec.
    rewrite (dot_msub_r p n p) by eauto with shape.
    rewrite <- (dot_assoc p n p p), Horth, (dot_eye_l p p)
      by eauto with shape.
    reflexivity. }
  rewrite E, sym_msub_self by eauto with shape.
  rewrite (dot_zeros_r n p p), (msub_zeros_r n p)
    by (try apply proj_spec_shape; eauto with shape).
  reflexivity.
Qed.

End ProjFacts.

Section ProjMethod.

Lemma proj_multi_slices (X U : list matrix) :
  @sub false U (@div false
     (@multiprod false X
        (@add false (@multiprod false (@multitransp false X) U)
                    (@multiprod false (@multitransp false U) X))) 2)
  = map2 proj_code X U.
Proof.
  revert U. induction X as [|x X IH]; intros [|u U]; try reflexivity.
  specialize (IH U). cbn in *. rewrite IH. reflexivity.
Qed.

Lemma proj_slices (self : Stiefel) (X U : array self) :
  slices (proj self X U) = map2 proj_code (slices X) (slices U).
Proof.
  revert X U. unfold array, proj.
  destruct (single self); intros X U.
  - reflexivity.
  - apply proj_multi_slices.
Qed.

End ProjMethod.

Lemma map2_proj_idempotent (n p : nat) (Xs Us : list matrix) :
  (0 < n)%nat -> (0 < p)%nat ->
  Forall (has_shape n p) Xs -> Forall (has_shape n p) Us ->
  Forall (fun x => dot (T x) x = eye p) Xs ->
  map2 proj_code Xs (map2 proj_code Xs Us) = map2 proj_code Xs Us.
Proof.
  intros Hn Hp HX. revert Us.
  induction HX as [|x Xs Hx HX IH]; intros Us HU HO; [reflexivity|].
  destruct HU as [|u Us Hu HU]; [reflexivity|].
  inversion HO as [|? ? Ho HO']; subst. simpl.
  rewrite IH by assumption. f_equal.
  rewrite (proj_code_spec n p Hn Hp x u) by assumption.
  rewrite (proj_code_spec n p) by (try apply proj_spec_shape; assumption).
  apply (proj_spec_idempotent n p); assumption.
Qed.

(** In exact arithmetic the projection is idempotent at a point with
    orthonormal columns; in binary64 it is so up to rounding only (claim
    C8). *)
Lemma proj_idempotent_exact (self : Stiefel) (n p : nat) (X U : array self) :
  (0 < n)%nat -> (0 < p)%nat ->
  Forall (has_shape n p) (slices X) -> Forall (has_shape n p) (slices U) ->
  Forall (fun x => dot (T x) x = eye p) (slices X) ->
  proj self X (proj self X U) = proj self X U.
Proof.
  intros Hn Hp HX HU HO. apply slices_inj.
  rewrite !proj_slices. apply (map2_proj_idempotent n p); assumption.
Qed.

Lemma dot_order_matters :
  exists H S : matrix, T S = S /\ dot H S <> dot S H.
Proof.
  exists [[0; 1]; [0; 0]], [[1; 0]; [0; 0]]. split.
  - unfold T, mk, get. simpl. reflexivity.
  - intros E. apply (f_equal (fun M => get M 0 1)) in E.
    unfold dot, mk, get in E. simpl in E. lra.
Qed.

(** ** Facts about the norm and the inner product *)

Section NormFacts.









End NormFacts.

(** ** Facts about the exponential map and the retraction *)

Section ExpFacts.

Variable expm : matrix -> result matrix.

Lemma getitem_app {A : Type} (l1 l2 : list A) (x : A) :
  getitem (l1 ++ x :: l2) (List.length l1) = Ok x.
Proof.
  unfold getitem. rewrite nth_error_app2 by lia.
  rewrite Nat.sub_diag. reflexivity.
Qed.

Lemma update_app {A : Type} (l1 l2 : list A) (x y : A) :
  update (l1 ++ x :: l2) (List.length l1) y = l1 ++ y :: l2.
Proof. induction l1 as [|a l1 IH]; simpl; [|rewrite IH]; reflexivity. Qed.

Lemma setitem_app {A : Type} (l1 l2 : list A) (x y : A) :
  setitem (l1 ++ x :: l2) (List.length l1) y = Ok (l1 ++ y :: l2).
Proof.
  unfold setitem.
  replace (List.length l1 <? List.length (l1 ++ x :: l2))%nat with true
    by (symmetry; apply Nat.ltb_lt; rewrite length_app; simpl; lia).
  rewrite update_app. reflexivity.
Qed.

(** The loop invariant: after the first [length done] indices, the output
    holds the results of those slices followed by the untouched zeros. *)
Lemma exp_loop_spec (p : nat) (X2 U2 Zs : list matrix) :
  List.length U2 = List.length X2 -> List.length Zs = List.length X2 ->
  forall X1 U1 done : list matrix,
    List.length U1 = List.length X1 -> List.length done = List.length X1 ->
    exp_loop expm p (X1 ++ X2) (U1 ++ U2)
      (seq (List.length X1) (List.length X2)) (done ++ Zs)
    = (r <- mapM2 (exp_closed_form expm p) X2 U2 ;; Ok (done ++ r)).
Proof.
  revert U2 Zs. induction X2 as [|x X2 IH]; intros [|u U2] [|z Zs] HU HZ;
    try discriminate; intros X1 U1 done HU1 Hd.
  - reflexivity.
  - cbn [List.length seq exp_loop mapM2].
    rewrite getitem_app. rewrite <- HU1, getitem_app. cbn [bind].
    unfold exp_closed_form.
    destruct (expm (block2 _ _ _ _)) as [E1|e]; cbn [bind]; [|reflexivity].
    destruct (expm (mneg _)) as [E2|e]; cbn [bind]; [|reflexivity].
    rewrite HU1, <- Hd, setitem_app. cbn [bind].
    set (y := dot (dot (hstack x u) E1) (vstack E2 (zeros p p))).
    specialize (IH U2 Zs ltac:(simpl in HU; lia) ltac:(simpl in HZ; lia)
                  (X1 ++ [x]) (U1 ++ [u]) (done ++ [y])).
    rewrite <- !app_assoc in IH. simpl in IH.
    rewrite !length_app in IH. simpl in IH.
    rewrite Hd. replace (S (List.length X1)) with (List.length X1 + 1)%nat by lia.
    rewrite IH by lia.
    destruct (mapM2 _ X2 U2); cbn [bind]; rewrite <- ?app_assoc; reflexivity.
Qed.

Lemma zeros_like3_length (X : list matrix) :
  List.length (zeros_like3 X) = List.length X.
Proof. unfold zeros_like3. apply length_map. Qed.

Lemma exp_refines_mapM2 (self : Stiefel) (X U : array self) :
  List.length (slices X) = Z.to_nat (_k self) ->
  List.length (slices U) = Z.to_nat (_k self) ->
  (Y <- exp expm self X U ;; Ok (slices Y))
  = mapM2 (exp_closed_form expm (Z.to_nat (_p self))) (slices X) (slices U).
Proof.
  revert X U. unfold array, exp, single.
  destruct (_k self =? 1)%Z; intros X U HX HU.
  - cbn [slices mapM2]. unfold exp_closed_form.
    destruct (expm (block2 _ _ _ _)) as [E1|e]; cbn [bind]; [|reflexivity].
    destruct (expm (mneg _)) as [E2|e]; cbn [bind]; reflexivity.
  - cbn [slices] in *. unfold xrange. rewrite <- HX.
    assert (E := exp_loop_spec (Z.to_nat (_p self)) X U (zeros_like3 X)
               ltac:(congruence) (zeros_like3_length X) [] [] []
               eq_refl eq_refl).
    cbn [app List.length] in E. rewrite E.
    destruct (mapM2 _ X U); reflexivity.
Qed.

End ExpFacts.

Lemma mapM2_ext {A B C : Type} (f g : A -> B -> result C) (l1 : list A)
  (l2 : list B) :
  (forall a b, f a b = g a b) -> mapM2 f l1 l2 = mapM2 g l1 l2.
Proof.
  intros H. revert l2. induction l1 as [|a l1 IH]; intros [|b l2];
    try reflexivity.
  simpl. rewrite H, IH. reflexivity.
Qed.

Section RetrFacts.

Variable qr : matrix -> result (matrix * matrix).

(** *** The retraction of a single matrix *)

Lemma sign_unflip (x : R) :
  sign (sign x + 0.5) = if Rle_dec 0 x then 1 else -1.
Proof.
  unfold sign.
  destruct (Rle_dec 0 x) as [Hle|Hnle];
    destruct (Rlt_dec 0 x) as [H1|H1];
    try destruct (Rlt_dec x 0) as [H2|H2];
    repeat match goal with
           | |- context [Rlt_dec ?a ?b] => destruct (Rlt_dec a b)
           end; lra.
Qed.

Lemma diag_shape (v : list R) : has_shape (List.length v) (List.length v) (diag v).
Proof. apply mk_shape. Qed.

Lemma get_diag (v : list R) (i j : nat) :
  (i < List.length v)%nat -> (j < List.length v)%nat ->
  get (diag v) i j = if Nat.eqb i j then nth i v 0 else 0.
Proof. intros. unfold diag. rewrite get_mk by assumption. reflexivity. Qed.

Lemma diagonal_length (p : nat) (r : matrix) :
  (0 < p)%nat -> has_shape p p r -> List.length (diagonal r) = p.
Proof.
  intros Hp Hr. unfold diagonal.
  rewrite length_map, length_seq, (nrows_shape p p r Hr),
    (ncols_shape p p r Hr Hp).
  apply Nat.min_id.
Qed.

Lemma sum_n_delta_r (n j : nat) (f g : nat -> R) :
  (j < n)%nat ->
  sum_n n (fun l => f l * (if Nat.eqb l j then g l else 0)) = f j * g j.
Proof.
  induction n as [|n IH]; intros Hj; [lia|]. simpl.
  destruct (Nat.eqb_spec n j) as [->|Hne].
  - rewrite (sum_n_ext j _ (fun _ => 0)), sum_n_zero; [lra|].
    intros l Hl. destruct (Nat.eqb_spec l j); [lia|lra].
  - rewrite IH by lia. lra.
Qed.

(** Column [j] of [q] is kept when [r[j][j] >= 0] and negated otherwise. *)
Lemma unflip_column (n p : nat) (q r : matrix) (i j : nat) :
  (0 < n)%nat -> (0 < p)%nat -> has_shape n p q -> has_shape p p r ->
  (i < n)%nat -> (j < p)%nat ->
  get (unflip q r) i j
  = get q i j * (if Rle_dec 0 (get r j j) then 1 else -1).
Proof.
  intros Hn Hp Hq Hr Hi Hj. unfold unflip.
  set (v := map sign (map (fun s => s + 0.5) (map sign (diagonal r)))).
  assert (Hv : List.length v = p).
  { unfold v. rewrite !length_map. apply diagonal_length; assumption. }
  assert (Hd : has_shape p p (diag v)) by (rewrite <- Hv; apply diag_shape).
  rewrite (get_dot n p p) by assumption.
  rewrite (sum_n_ext p _
             (fun l => get q i l * (if Nat.eqb l j then nth l v 0 else 0)))
    by (intros l Hl; rewrite get_diag by lia; reflexivity).
  rewrite (sum_n_delta_r p j (fun l => get q i l) (fun l => nth l v 0)) by exact Hj.
  f_equal. unfold v.
  rewrite (nth_indep _ 0 (sign (sign (get r 0 0) + 0.5)))
    by (rewrite !length_map, (diagonal_length p) by assumption; exact Hj).
  unfold diagonal. rewrite !map_map.
  rewrite (map_nth (fun x => sign (sign (get r x x) + 0.5))).
  rewrite seq_nth
    by (rewrite (nrows_shape p p r Hr), (ncols_shape p p r Hr Hp), Nat.min_id;
        exact Hj).
  apply sign_unflip.
Qed.

Lemma retr_single_formula (self : Stiefel) (x g : matrix) :
  retr qr (as_single self) x g
  = (qr_ <- qr (madd x g) ;; Ok (unflip (fst qr_) (snd qr_))).
Proof. reflexivity. Qed.

End RetrFacts.

(** ** Facts about the tangent space and the projection *)

Section TangentFacts.

Variables n p : nat.
Hypothesis n_pos : (0 < n)%nat.
Hypothesis p_pos : (0 < p)%nat.



End TangentFacts.

Section ProjLifted.

Variables n p : nat.
Hypothesis n_pos : (0 < n)%nat.
Hypothesis p_pos : (0 < p)%nat.


End ProjLifted.

(** ** Facts about the sign correction of the QR retraction *)

Section QRFacts.

Variables n p : nat.
Hypothesis n_pos : (0 < n)%nat.
Hypothesis p_pos : (0 < p)%nat.

Lemma flip_sign_sqr (r : matrix) (j : nat) : flip_sign r j * flip_sign r j = 1.
Proof. unfold flip_sign. destruct (Rle_dec 0 (get r j j)); lra. Qed.

Lemma flip_sign_diag (r : matrix) (j : nat) :
  0 <= flip_sign r j * get r j j.
Proof. unfold flip_sign. destruct (Rle_dec 0 (get r j j)); lra. Qed.

Lemma unflip_shape (q r : matrix) :
  has_shape n p q -> has_shape p p r -> has_shape n p (unflip q r).
Proof.
  intros Hq Hr. unfold unflip. apply (dot_shape n p p); auto.
  set (v := map sign _).
  assert (Hv : List.length v = p).
  { unfold v. rewrite !length_map. apply diagonal_length; assumption. }
  rewrite <- Hv at 1 2. apply diag_shape.
Qed.

Lemma get_unflip (q r : matrix) (i j : nat) :
  has_shape n p q -> has_shape p p r -> (i < n)%nat -> (j < p)%nat ->
  get (unflip q r) i j = get q i j * flip_sign r j.
Proof. intros. apply (unflip_column n p); assumption. Qed.

Lemma unflip_orthonormal (q r : matrix) :
  has_shape n p q -> has_shape p p r -> orthonormal p q ->
  orthonormal p (unflip q r).
Proof.
  intros Hq Hr Ho. unfold orthonormal in *.
  assert (Hy := unflip_shape q r Hq Hr).
  apply (shape_ext p p); eauto with shape.
  intros i j Hi Hj.
  rewrite (get_dot p n p), get_eye; eauto with shape.
  assert (E : get (dot (T q) q) i j = get (eye p) i j) by (rewrite Ho; reflexivity).
  rewrite (get_dot p n p), get_eye in E; eauto with shape.
  rewrite (sum_n_ext n _
    (fun l => (get (T q) i l * get q l j) * (flip_sign r i * flip_sign r j))).
  - rewrite sum_n_scal_r, E.
    destruct (Nat.eqb_spec i j) as [->|Hne]; [|lra].
    rewrite flip_sign_sqr. lra.
  - intros l Hl.
    rewrite !(get_T n p), !get_unflip; eauto with shape. lra.
Qed.

Lemma unflip_factor (q r : matrix) :
  has_shape n p q -> has_shape p p r ->
  dot (unflip q r) (flip_rows p r) = dot q r.
Proof.
  intros Hq Hr.
  assert (Hy := unflip_shape q r Hq Hr).
  assert (Hf : has_shape p p (flip_rows p r)) by apply mk_shape.
  apply (shape_ext n p); eauto with shape.
  intros i j Hi Hj.
  rewrite !(get_dot n p p); eauto with shape.
  apply sum_n_ext. intros l Hl.
  rewrite get_unflip by assumption. unfold flip_rows.
  rewrite get_mk by assumption.
  assert (S := flip_sign_sqr r l).
  transitivity (get q i l * get r l j * (flip_sign r l * flip_sign r l));
    [lra|rewrite S; lra].
Qed.

(** An upper triangular [r] with [rt r = I] is diagonal. *)
Lemma triangular_orthonormal_diagonal (r : matrix) :
  has_shape p p r -> upper_triangular p r -> orthonormal p r ->
  forall i, (i < p)%nat ->
    get r i i * get r i i = 1
    /\ forall j, (j < p)%nat -> j <> i -> get r i j = 0.
Proof.
  intros Hr Hu Ho.
  assert (E : forall i j, (i < p)%nat -> (j < p)%nat ->
            sum_n p (fun l => get r l i * get r l j)
            = if Nat.eqb i j then 1 else 0).
  { intros i j Hi Hj.
    assert (E : get (dot (T r) r) i j = get (eye p) i j)
      by (rewrite Ho; reflexivity).
    rewrite (get_dot p p p), get_eye in E; eauto with shape.
    rewrite <- E. apply sum_n_ext. intros l Hl.
    rewrite (get_T p p); eauto with shape. }
  intros i. induction i as [i IH] using lt_wf_ind. intros Hi.
  assert (Hcol : forall l, (l < p)%nat -> l <> i -> get r l i = 0).
  { intros l Hl Hne. destruct (Nat.lt_ge_cases l i) as [Hlt|Hge].
    - apply (proj2 (IH l Hlt Hl)); [exact Hi|lia].
    - apply Hu; lia. }
  assert (S : forall j, (j < p)%nat ->
            sum_n p (fun l => get r l i * get r l j) = get r i i * get r i j).
  { intros j Hj.
    rewrite (sum_n_ext p _
      (fun l => (if Nat.eqb i l then 1 else 0) * (get r l i * get r l j))).
    - apply (sum_n_delta p i (fun l => get r l i * get r l j)). exact Hi.
    - intros l Hl. destruct (Nat.eqb_spec i l) as [->|Hne]; [lra|].
      rewrite Hcol by (auto; lia). lra. }
  assert (Hd : get r i i * get r i i = 1).
  { rewrite <- S, E by assumption. rewrite Nat.eqb_refl. reflexivity. }
  split; [exact Hd|].
  intros j Hj Hne.
  assert (Hz : get r i i * get r i j = 0).
  { rewrite <- S, E by assumption.
    destruct (Nat.eqb_spec i j); [lia|reflexivity]. }
  assert (Hnz : get r i i <> 0) by (intros Z0; rewrite Z0 in Hd; lra).
  destruct (Rmult_integral _ _ Hz); [contradiction|assumption].
Qed.

Lemma madd_zeros_r (A : matrix) : has_shape n p A -> madd A (zeros n p) = A.
Proof.
  intros HA. apply (shape_ext n p); eauto with shape.
  intros i j Hi Hj. rewrite (get_madd n p), get_zeros by assumption. lra.
Qed.

Lemma unflip_identity (x q r : matrix) :
  has_shape n p q -> has_shape p p r -> orthonormal p q ->
  upper_triangular p r -> dot q r = x -> orthonormal p x ->
  unflip q r = x.
Proof.
  intros Hq Hr Hoq Hu Hx Hox.
  assert (Hor : orthonormal p r).
  { unfold orthonormal in *.
    rewrite <- Hx, (T_dot n p p) in Hox by assumption.
    rewrite (dot_assoc p p n p) in Hox; eauto with shape.
    rewrite <- (dot_assoc p n p p p_pos n_pos p_pos (T q) q r) in Hox;
      eauto with shape.
    rewrite Hoq, (dot_eye_l p p) in Hox by assumption. exact Hox. }
  assert (D := triangular_orthonormal_diagonal r Hr Hu Hor).
  subst x. apply (shape_ext n p); eauto using unflip_shape with shape.
  intros i j Hi Hj.
  rewrite get_unflip, (get_dot n p p) by assumption.
  rewrite (sum_n_ext p _
    (fun l => get q i l * (if Nat.eqb l j then get r l j else 0))).
  - rewrite (sum_n_delta_r p j (fun l => get q i l) (fun l => get r l j))
      by exact Hj.
    f_equal. destruct (D j Hj) as [Hd _].
    unfold flip_sign. destruct (Rle_dec 0 (get r j j)); nra.
  - intros l Hl. destruct (Nat.eqb_spec l j) as [->|Hne]; [reflexivity|].
    rewrite (proj2 (D l Hl) j Hj) by auto. reflexivity.
Qed.

End QRFacts.

(** ** Facts about the loop of [rand] *)

Section RandSpec.

Variable qr : matrix -> result (matrix * matrix).
Variable rng : Type.
Variable randn2 : rng -> nat -> nat -> matrix * rng.

Lemma rand_loop_spec (n p : nat) (Zs done : list matrix) (g : rng) :
  rand_loop qr rng randn2 n p (seq (List.length done) (List.length Zs))
    (done ++ Zs) g
  = (Qs <- fst (rand_draws qr rng randn2 n p (List.length Zs) g) ;;
     Ok (done ++ Qs),
     snd (rand_draws qr rng randn2 n p (List.length Zs) g)).
Proof.
  revert done g. induction Zs as [|z Zs IH]; intros done g.
  - cbn. rewrite app_nil_r. reflexivity.
  - cbn [List.length seq rand_loop rand_draws].
    destruct (randn2 g n p) as [A g'].
    destruct (qr A) as [[q r]|e]; [|reflexivity].
    rewrite setitem_app. cbn [fst].
    specialize (IH (done ++ [q]) g').
    rewrite <- app_assoc, length_app in IH. cbn [app List.length] in IH.
    replace (List.length done + 1)%nat with (S (List.length done)) in IH by lia.
    rewrite IH.
    destruct (rand_draws qr rng randn2 n p (List.length Zs) g') as [[Qs|e] g''];
      cbn [fst snd bind]; rewrite <- ?app_assoc; reflexivity.
Qed.

Lemma rand_draws_all (n p k : nat) (P : matrix -> Prop) (g : rng)
  (Qs : list matrix) :
  (forall A q r, qr A = Ok (q, r) -> P q) ->
  fst (rand_draws qr rng randn2 n p k g) = Ok Qs ->
  List.length Qs = k /\ Forall P Qs.
Proof.
  intros HP. revert g Qs. induction k as [|k IH]; intros g Qs.
  - cbn. intros E. injection E as <-. split; [reflexivity|constructor].
  - cbn [rand_draws]. destruct (randn2 g n p) as [A g'].
    destruct (qr A) as [[q r]|e] eqn:EA; [|discriminate].
    specialize (IH g').
    destruct (rand_draws qr rng randn2 n p k g') as [[Qs'|e] g'']; cbn;
      [|discriminate].
    intros E. injection E as <-.
    destruct (IH Qs' eq_refl) as [HL HF].
    split; [simpl; congruence|]. constructor; [|exact HF].
    apply (HP A q r EA).
Qed.

End RandSpec.

Lemma rand_slices (qr : matrix -> result (matrix * matrix))
  (rng : Type) (randn2 : rng -> nat -> nat -> matrix * rng)
  (self : Stiefel) (g : rng) :
  (1 <= _k self)%Z ->
  (X <- fst (rand qr rng randn2 self g) ;; Ok (slices X),
   snd (rand qr rng randn2 self g))
  = rand_draws qr rng randn2 (Z.to_nat (_n self)) (Z.to_nat (_p self))
      (Z.to_nat (_k self)) g.
Proof.
  intros Hk. unfold rand, array, single.
  destruct (Z.eqb_spec (_k self) 1) as [E|NE].
  - rewrite E. change (Z.to_nat 1) with 1%nat. cbn [rand_draws].
    destruct (randn2 g _ _) as [A g'].
    destruct (qr A) as [[q r]|e]; reflexivity.
  - cbn [slices]. unfold xrange, zeros3.
    assert (E := rand_loop_spec qr rng randn2 (Z.to_nat (_n self))
                   (Z.to_nat (_p self))
                   (repeat (zeros (Z.to_nat (_n self)) (Z.to_nat (_p self)))
                      (Z.to_nat (_k self))) [] g).
    rewrite repeat_length in E. cbn [app List.length] in E. rewrite E.
    cbn [fst snd].
    destruct (rand_draws _ _ _ _ _ _ _) as [[Qs|e] g']; reflexivity.
Qed.

(** ** Facts about the loop of [exp] on stacks of other lengths *)

Section ExpBounds.

Variable expm : matrix -> result matrix.

Lemma exp_loop_app (p : nat) (X U : list matrix) (idx1 idx2 : list nat)
  (Y : list matrix) :
  exp_loop expm p X U (idx1 ++ idx2) Y
  = (Y' <- exp_loop expm p X U idx1 Y ;; exp_loop expm p X U idx2 Y').
Proof.
  revert Y. induction idx1 as [|i idx1 IH]; intros Y; [reflexivity|].
  cbn [app exp_loop].
  destruct (getitem X i); cbn [bind]; [|reflexivity].
  destruct (getitem U i); cbn [bind]; [|reflexivity].
  destruct (expm (block2 _ _ _ _)); cbn [bind]; [|reflexivity].
  destruct (expm (mneg _)); cbn [bind]; [|reflexivity].
  destruct (setitem Y i _); cbn [bind]; [apply IH|reflexivity].
Qed.

(** The loop invariant of [exp_loop_spec] with slices left over after the
    indexed ones. *)
Lemma exp_loop_prefix (p : nat) (X2 U2 Zs X3 U3 Z3 : list matrix) :
  List.length U2 = List.length X2 -> List.length Zs = List.length X2 ->
  forall X1 U1 done : list matrix,
    List.length U1 = List.length X1 -> List.length done = List.length X1 ->
    exp_loop expm p (X1 ++ X2 ++ X3) (U1 ++ U2 ++ U3)
      (seq (List.length X1) (List.length X2)) (done ++ Zs ++ Z3)
    = (r <- mapM2 (exp_closed_form expm p) X2 U2 ;; Ok (done ++ r ++ Z3)).
Proof.
  revert U2 Zs. induction X2 as [|x X2 IH]; intros [|u U2] [|z Zs] HU HZ;
    try discriminate; intros X1 U1 done HU1 Hd.
  - reflexivity.
  - cbn [List.length seq exp_loop mapM2 app].
    rewrite getitem_app. rewrite <- HU1, getitem_app. cbn [bind].
    unfold exp_closed_form.
    destruct (expm (block2 _ _ _ _)) as [E1|e]; cbn [bind]; [|reflexivity].
    destruct (expm (mneg _)) as [E2|e]; cbn [bind]; [|reflexivity].
    rewrite HU1, <- Hd, setitem_app. cbn [bind].
    set (y := dot (dot (hstack x u) E1) (vstack E2 (zeros p p))).
    specialize (IH U2 Zs ltac:(simpl in HU; lia) ltac:(simpl in HZ; lia)
                  (X1 ++ [x]) (U1 ++ [u]) (done ++ [y])).
    rewrite <- !app_assoc in IH. simpl in IH.
    rewrite !length_app in IH. simpl in IH.
    rewrite Hd. replace (S (List.length X1)) with (List.length X1 + 1)%nat by lia.
    rewrite IH by lia.
    destruct (mapM2 _ X2 U2); cbn [bind]; rewrite <- ?app_assoc; reflexivity.
Qed.

Lemma getitem_out_of_range {A : Type} (l : list A) (i : nat) :
  (List.length l <= i)%nat -> getitem l i = Raise IndexError.
Proof.
  intros H. unfold getitem.
  rewrite (proj2 (nth_error_None l i) H). reflexivity.
Qed.

Lemma zeros_like3_skipn (X : list matrix) (k : nat) :
  skipn k (zeros_like3 X)
  = repeat (zeros (nrows (hd [] X)) (ncols (hd [] X))) (List.length X - k).
Proof.
  unfold zeros_like3. generalize (zeros (nrows (hd [] X)) (ncols (hd [] X))).
  intros z. revert k. induction X as [|x X IH]; intros k.
  - destruct k; reflexivity.
  - destruct k; simpl.
    + f_equal. specialize (IH 0%nat). simpl in IH.
      rewrite Nat.sub_0_r in IH. exact IH.
    + apply IH.
Qed.

End ExpBounds.

(** ** Facts about constructed manifolds *)

Section InitInvariant.

Local Open Scope Z_scope.

Lemma init_ok_inv (n p k : Z) (self : Stiefel) :
  __init__ n p k = Ok self ->
  1 <= p <= n /\ 1 <= k
  /\ exists d, dim_of n p k = Ok d
       /\ self = {| _n := n; _p := p; _k := k; _dim := d;
                    _name := name_of n p k |}.
Proof.
  unfold __init__. intros H.
  destruct (n <? p) eqn:E1; [discriminate|].
  destruct (p <? 1) eqn:E2; [discriminate|].
  destruct (k <? 1) eqn:E3; [discriminate|].
  cbn [orb] in H. apply Z.ltb_ge in E1, E2, E3.
  destruct (dim_of n p k) as [d|e]; cbn [bind] in H; [|discriminate].
  injection H as <-. repeat split; try lia. exists d. split; reflexivity.
Qed.

End InitInvariant.

(** ** Facts about the example points *)

Section ExamplePoints.

Lemma e1_orthonormal : orthonormal 1 [[1]; [0]].
Proof. unfold orthonormal, dot, T, eye, mk, get. simpl. repeat f_equal. lra. Qed.


Lemma e1_qr_example : dot [[1]; [0]] [[1]] = madd [[1]; [0]] (zeros 2 1).
Proof.
  unfold madd, dot, zeros, mk, get. simpl.
  replace (0 + 1 * 1) with (1 + 0) by lra.
  replace (0 + 0 * 1) with (0 + 0) by lra. reflexivity.
Qed.

End ExamplePoints.

(** ** Facts about binary64 arrays *)

Section Float64Facts.

Lemma float_mul_finite_zero (x z : float) :
  is_finite x = true -> is_zero z = true -> is_zero (float_mul x z) = true.
Proof. destruct x, z; try discriminate; reflexivity. Qed.

Lemma float_add_zero_zero (x y : float) :
  is_zero x = true -> is_zero y = true -> is_zero (np64.float_add x y) = true.
Proof.
  destruct x as [[|]| | |], y as [[|]| | |]; try discriminate; reflexivity.
Qed.

Lemma float_div_zero_two (x : float) :
  is_zero x = true -> is_zero (np64.float_div x np64.two) = true.
Proof. destruct x; try discriminate; reflexivity. Qed.

Lemma float_sub_zero (u z : float) :
  is_zero z = true -> same_float (float_sub u z) u.
Proof.
  destruct z as [sz| | |]; try discriminate. intros _.
  destruct u as [[|]|su| |su mu eu]; destruct sz; cbn;
    try (left; reflexivity); right; split; reflexivity.
Qed.




Lemma sum_n_zero64 (n : nat) (f : nat -> float) :
  (forall l, is_zero (f l) = true) -> is_zero (np64.sum_n n f) = true.
Proof.
  intros H. induction n as [|n IH]; [reflexivity|].
  cbn [np64.sum_n]. apply float_add_zero_zero; auto.
Qed.


End Float64Facts.

Section Array64Facts.

Lemma get_mk64 (n p : nat) (f : nat -> nat -> float) (i j : nat) :
  np64.get (np64.mk n p f) i j
  = if ((i <? n) && (j <? p))%nat then f i j else np64.zero.
Proof.
  unfold np64.get, np64.mk.
  destruct (Nat.ltb_spec i n) as [Hi|Hi].
  - rewrite (nth_indep _ [] (map (fun j0 => f 0%nat j0) (seq 0 p)))
      by (rewrite length_map, length_seq; exact Hi).
    rewrite (map_nth (fun i0 => map (fun j0 => f i0 j0) (seq 0 p))).
    rewrite seq_nth by exact Hi. cbn [Nat.add andb].
    destruct (Nat.ltb_spec j p) as [Hj|Hj].
    + rewrite (nth_indep _ np64.zero (f i 0%nat))
        by (rewrite length_map, length_seq; exact Hj).
      rewrite (map_nth (fun j0 => f i j0)), seq_nth by exact Hj. reflexivity.
    + apply nth_overflow. rewrite length_map, length_seq. exact Hj.
  - rewrite (nth_overflow (map _ _))
      by (rewrite length_map, length_seq; exact Hi).
    destruct j; reflexivity.
Qed.

Lemma get_all_entries (P : float -> bool) (A : np64.matrix) (i j : nat) :
  P np64.zero = true -> all_entries P A -> P (np64.get A i j) = true.
Proof.
  intros H0 HA. unfold np64.get.
  destruct (Nat.lt_ge_cases i (List.length A)) as [Hi|Hi].
  - assert (Hr := proj1 (Forall_nth _ A) HA i [] Hi).
    destruct (Nat.lt_ge_cases j (List.length (nth i A []))) as [Hj|Hj].
    + exact (proj1 (Forall_nth _ _) Hr j np64.zero Hj).
    + rewrite nth_overflow by exact Hj. exact H0.
  - rewrite (nth_overflow A) by exact Hi. destruct j; exact H0.
Qed.

Lemma all_entries_mk (P : float -> bool) (n p : nat)
  (f : nat -> nat -> float) :
  (forall i j, P (f i j) = true) -> all_entries P (np64.mk n p f).
Proof.
  intros H. unfold all_entries, np64.mk.
  apply Forall_map, Forall_forall. intros i _.
  apply Forall_map, Forall_forall. intros j _. apply H.
Qed.

Lemma all_entries_mdiv_two (A : np64.matrix) :
  all_entries is_zero A -> all_entries is_zero (np64.mdiv A np64.two).
Proof.
  intros H. unfold all_entries, np64.mdiv.
  apply Forall_map. eapply Forall_impl; [|exact H]. intros r Hr.
  apply Forall_map. eapply Forall_impl; [|exact Hr]. intros x Hx.
  apply float_div_zero_two. exact Hx.
Qed.

Lemma all_entries_dot_zero (X R : np64.matrix) :
  all_entries is_finite X -> all_entries is_zero R ->
  all_entries is_zero (np64.dot X R).
Proof.
  intros HX HR. unfold np64.dot. apply all_entries_mk. intros i j.
  apply sum_n_zero64. intros l. apply float_mul_finite_zero.
  - apply get_all_entries; [reflexivity|exact HX].
  - apply get_all_entries; [reflexivity|exact HR].
Qed.

Lemma Forall2_map_seq {A B : Type} (S : A -> B -> Prop) (d : B)
  (l : list B) (g : nat -> A) (a : nat) :
  (forall i, (i < List.length l)%nat -> S (g (a + i)%nat) (nth i l d)) ->
  Forall2 S (map g (seq a (List.length l))) l.
Proof.
  revert a. induction l as [|x l IH]; intros a H; [constructor|].
  cbn [List.length seq map]. constructor.
  - specialize (H 0%nat ltac:(simpl; lia)). rewrite Nat.add_0_r in H. exact H.
  - apply IH. intros i Hi.
    specialize (H (Datatypes.S i) ltac:(simpl; lia)).
    rewrite Nat.add_succ_r in H. exact H.
Qed.

Lemma same_matrix_mk (n p : nat) (f : nat -> nat -> float) (U : np64.matrix) :
  has_shape64 n p U ->
  (forall i j, same_float (f i j) (np64.get U i j)) ->
  same_matrix (np64.mk (np64.nrows U) (np64.ncols U) f) U.
Proof.
  intros [HL HR] H. unfold same_matrix, np64.mk, np64.nrows.
  apply (Forall2_map_seq _ []). intros i Hi. cbn [Nat.add].
  assert (Hp : List.length (nth i U []) = np64.ncols U).
  { assert (Hi' := proj1 (Forall_nth _ U) HR i [] Hi). cbn beta in Hi'.
    unfold np64.ncols. destruct U as [|r U]; [simpl in Hi; lia|].
    cbn [hd]. rewrite Hi'. symmetry. exact (Forall_inv HR). }
  rewrite <- Hp. apply (Forall2_map_seq _ np64.zero). intros j Hj.
  cbn [Nat.add]. apply H.
Qed.



(** An array whose residual at [X] is zero is returned by the expression
    of line 62, up to the sign of its zeros. *)
Lemma proj_code64_fixes (n p : nat) (X U : np64.matrix) :
  has_shape64 n p U -> all_entries is_finite X ->
  all_entries is_zero (residual64 X U) ->
  same_matrix (proj_code64 X U) U.
Proof.
  intros HU HX HR. unfold proj_code64, np64.msub.
  apply (same_matrix_mk n p); [exact HU|]. intros i j.
  apply float_sub_zero. apply get_all_entries; [reflexivity|].
  apply all_entries_mdiv_two, all_entries_dot_zero; assumption.
Qed.

Lemma map2_proj_code64_fixes (n p : nat) (Xs Ps : list np64.matrix) :
  Forall (has_shape64 n p) Ps -> Forall (all_entries is_finite) Xs ->
  (List.length Ps <= List.length Xs)%nat ->
  Forall (fun xp => all_entries is_zero (residual64 (fst xp) (snd xp)))
    (combine Xs Ps) ->
  Forall2 same_matrix (map2 proj_code64 Xs Ps) Ps.
Proof.
  intros HP. revert Xs. induction HP as [|u Ps Hu HP IH]; intros Xs HX HL HR.
  - destruct Xs; constructor.
  - destruct HX as [|x Xs Hx HX]; [simpl in HL; lia|].
    cbn in HR. inversion HR; subst. cbn [map2]. constructor.
    + apply (proj_code64_fixes n p); assumption.
    + apply IH; [assumption|simpl in HL; lia|assumption].
Qed.



Lemma proj64_multi_slices (X U : list np64.matrix) :
  @np64.sub false U (@np64.div false
     (@np64.multiprod false X
        (@np64.add false (@np64.multiprod false (@np64.multitransp false X) U)
           (@np64.multiprod false (@np64.multitransp false U) X)))
     np64.two)
  = map2 proj_code64 X U.
Proof.
  revert U. induction X as [|x X IH]; intros [|u U]; try reflexivity.
  specialize (IH U). cbn in *. rewrite IH. reflexivity.
Qed.

Lemma proj64_slices (self : Stiefel) (X U : stiefel64.array self) :
  np64.slices (stiefel64.proj self X U)
  = map2 proj_code64 (np64.slices X) (np64.slices U).
Proof.
  revert X U. unfold stiefel64.array, stiefel64.proj.
  destruct (single self); intros X U.
  - reflexivity.
  - apply proj64_multi_slices.
Qed.


End Array64Facts.

(** Closed side conditions on concrete arrays: the conjunctions and lists
    are taken apart and the equations between floats are evaluated. *)
Ltac by_evaluation :=
  repeat (cbv beta;
          match goal with
          | |- _ = _ => vm_compute; reflexivity
          | |- _ => constructor
          end).

(** ** Examples of construction *)

(** The example manifolds are what the constructor returns. *)
Lemma St_2_1_init : __init__ 2 1 1 = Ok St_2_1.
Proof. vm_compute. reflexivity. Qed.

Lemma St_2_1_k2_init : __init__ 2 1 2 = Ok St_2_1_k2.
Proof. vm_compute. reflexivity. Qed.

Lemma St_3_2_init : __init__ 3 2 1 = Ok St_3_2.
Proof. vm_compute. reflexivity. Qed.

(** The concrete scenarios of the spec (section 8). *)
Example dim_5_2_1 :
  (self <- __init__ 5 2 1 ;; Ok (integer_value (dim self))) = Ok (Some 7%Z).
Proof. vm_compute. reflexivity. Qed.

Example dim_4_4_1 :
  (self <- __init__ 4 4 1 ;; Ok (integer_value (dim self))) = Ok (Some 6%Z).
Proof. vm_compute. reflexivity. Qed.

Example init_3_4_fails :
  __init__ 3 4 1
  = Raise (ValueError
      "Need n >= p >= 1. Values supplied were n = 3 and p = 4.").
Proof. vm_compute. reflexivity. Qed.

(** * The claims *)

(** C1 (the code departs from the claim when [k > 1]).  The claim says that
    [retr(X, G)] retracts each slice of a stack independently.  The loop of
    the [k > 1] branch reads [Y[i]], and no name [Y] is bound in [retr]: on
    every manifold with [k > 1] and every pair of stacks the call raises
    [NameError] instead of returning the retracted slices.  (The [k = 1]
    branch does what the claim says: [retr_single_formula] and
    [unflip_column].) *)
Theorem retr_product_raises (qr : matrix -> result (matrix * matrix))
  (self : Stiefel) (X G : array self) :
  (1 < _k self)%Z -> retr qr self X G = Raise (NameError "Y").
Proof.
  intros Hk. revert X G. unfold array, retr, single.
  destruct (Z.eqb_spec (_k self) 1) as [E|_]; [lia|]. intros X G.
  unfold xrange. destruct (Z.to_nat (_k self)) as [|m] eqn:Em; [lia|].
  reflexivity.
Qed.

Lemma retr_product_raises_witness :
  retr (fun A => Ok (A, A)) St_2_1_k2
       ([[[1]; [0]]; [[0]; [1]]] : list matrix)
       ([[[0]; [1]]; [[1]; [0]]] : list matrix)
  = Raise (NameError "Y").
Proof.
  apply (retr_product_raises (fun A => Ok (A, A)) St_2_1_k2). reflexivity.
Defined.

(** C2.  For every manifold and every pair of arrays with [k] slices each,
    [exp(X, U)] is the closed-form block construction
    [[X | U] expm([[A, -Ut U], [I_p, A]]) [expm(-A); 0]] with [A = Xt U],
    applied to the slices in order (once when [k = 1]); a failure of the
    matrix exponential on a slice is the failure of the call.  In
    particular the slices computed by the [k > 1] branch are those the
    [k = 1] branch computes at each [(X_i, U_i)]. *)
Theorem exp_per_slice (expm : matrix -> result matrix) (self : Stiefel)
  (X U : array self) :
  List.length (slices X) = Z.to_nat (_k self) ->
  List.length (slices U) = Z.to_nat (_k self) ->
  (Y <- exp expm self X U ;; Ok (slices Y))
  = mapM2 (exp_closed_form expm (Z.to_nat (_p self))) (slices X) (slices U)
  /\ (Y <- exp expm self X U ;; Ok (slices Y))
     = mapM2 (exp expm (as_single self)) (slices X) (slices U).
Proof.
  intros HX HU.
  assert (E := exp_refines_mapM2 expm self X U HX HU).
  split; [exact E|]. rewrite E. apply mapM2_ext. reflexivity.
Qed.

Lemma exp_per_slice_witness :
  (Y <- exp (fun A => Ok A) St_2_1_k2
          ([[[1]; [0]]; [[0]; [1]]] : list matrix)
          ([[[0]; [1]]; [[1]; [0]]] : list matrix) ;; Ok (slices Y))
  = mapM2 (exp_closed_form (fun A => Ok A) 1)
      [[[1]; [0]]; [[0]; [1]]] [[[0]; [1]]; [[1]; [0]]]
  /\ (Y <- exp (fun A => Ok A) St_2_1_k2
          ([[[1]; [0]]; [[0]; [1]]] : list matrix)
          ([[[0]; [1]]; [[1]; [0]]] : list matrix) ;; Ok (slices Y))
     = mapM2 (exp (fun A => Ok A) (as_single St_2_1_k2))
         [[[1]; [0]]; [[0]; [1]]] [[[0]; [1]]; [[1]; [0]]].
Proof.
  apply (exp_per_slice (fun A => Ok A) St_2_1_k2
           ([[[1]; [0]]; [[0]; [1]]] : list matrix)
           ([[[0]; [1]]; [[1]; [0]]] : list matrix)); reflexivity.
Defined.



(** C4 (amended).  For every valid construction input [(n, p, k)] with
    [n >= p >= 1], [k >= 1] and [k n p <= 2^53], the constructed [dim] is
    the float equal to the integer [k (n p - p (p + 1) / 2)], it is stored
    at construction and the [dim] property returns the stored value. *)
Theorem dim_exact_up_to_2p53 (n p k : Z) :
  (1 <= p <= n)%Z -> (1 <= k)%Z -> (k * (n * p) <= 2 ^ 53)%Z ->
  exists self,
    __init__ n p k = Ok self /\
    integer_value (_dim self) = Some (k * (n * p - p * (p + 1) / 2))%Z /\
    dim self = _dim self.
Proof.
  intros Hp Hk Hb.
  assert (Ht := triangular_bounds n p Hp).
  eexists. split; [|split].
  - rewrite init_valid, dim_of_exact by assumption. reflexivity.
  - cbn [_dim]. apply integer_value_enc. nia.
  - reflexivity.
Qed.

Lemma dim_exact_up_to_2p53_witness :
  exists self,
    __init__ 5 2 1 = Ok self /\
    integer_value (_dim self) = Some 7%Z /\
    dim self = _dim self.
Proof.
  apply (dim_exact_up_to_2p53 5 2 1); lia.
Defined.

(** C4, as stated, fails at [(n, p, k) = (2^53 + 1, 1, 1)]: the input is
    valid, the formula gives [2^53], and the constructed [dim] is the float
    [2^53 - 1], since [n p = 2^53 + 1] rounds to [2^53] when it is converted
    for the subtraction. *)
Lemma dim_rounds_above_2p53 :
  exists self,
    __init__ (2 ^ 53 + 1) 1 1 = Ok self /\
    integer_value (dim self) = Some (2 ^ 53 - 1)%Z /\
    integer_value (dim self)
    <> Some (1 * ((2 ^ 53 + 1) * 1 - 1 * (1 + 1) / 2))%Z.
Proof.
  eexists. split; [vm_compute; reflexivity|].
  split; vm_compute; [reflexivity|discriminate].
Qed.

(** C5.  For every manifold and arrays [X], [egrad], [ehess], [H],
    [ehess2rhess(X, egrad, ehess, H) = proj(X, ehess - H S)] where, slice by
    slice, [S = sym(Xt egrad)] and [H S] is the product with [H] on the
    left; the two orders of the product differ in general, also for a
    symmetric [S]. *)
Theorem ehess2rhess_formula (self : Stiefel) (X egrad ehess H : array self) :
  ehess2rhess self X egrad ehess H
  = proj self X
      (sub ehess (multiprod H (multisym (multiprod (multitransp X) egrad))))
  /\ slices (multiprod H (multisym (multiprod (multitransp X) egrad)))
     = map2 dot (slices H)
         (map2 (fun x g => sym (dot (T x) g)) (slices X) (slices egrad))
  /\ (exists H0 S0 : matrix, T S0 = S0 /\ dot H0 S0 <> dot S0 H0).
Proof.
  split; [reflexivity|]. split; [|exact dot_order_matters].
  unfold multiprod, multisym, multitransp.
  rewrite slices_zip_slices, slices_map_slices, slices_zip_slices,
    slices_map_slices.
  rewrite map_map2, map2_map_l. reflexivity.
Qed.

(** C6 (amended).  Construction with [(n, p, k)] fails with [ValueError]
    (the spec's InvalidDimension) exactly when [n < p], [p < 1] or [k < 1].
    For every other input it succeeds, with [dim] and [name] computed at
    construction as functions of [(n, p, k)], unless [n p] or [k] is at
    least [2^1024 - 2^970], too large to convert to a float: then it fails
    with [OverflowError]. *)
Theorem init_outcome (n p k : Z) :
  ((exists msg, __init__ n p k = Raise (ValueError msg))
   <-> (n < p \/ p < 1 \/ k < 1)%Z)
  /\ ((1 <= p <= n)%Z -> (1 <= k)%Z ->
      ((n * p < int_overflow)%Z -> (k < int_overflow)%Z ->
       exists d s,
         dim_of n p k = Ok d /\ name_of n p k = Some s /\
         __init__ n p k
         = Ok {| _n := n; _p := p; _k := k; _dim := d; _name := Some s |})
      /\ ((int_overflow <= n * p \/ int_overflow <= k)%Z ->
          __init__ n p k = Raise OverflowError)).
Proof.
  split; [apply init_guard|]. intros Hp Hk. split.
  - intros Hnp Hkb.
    destruct (dim_of_ok n p k) as [d Hd]; try assumption.
    destruct (name_of_defined n p k Hk) as [s Hs].
    exists d, s. rewrite init_valid, Hd, Hs by assumption. auto.
  - intros H. rewrite init_valid, dim_of_overflow by assumption. reflexivity.
Qed.

Lemma init_outcome_witness :
  exists d s,
    dim_of 6 2 3 = Ok d /\ name_of 6 2 3 = Some s /\
    __init__ 6 2 3
    = Ok {| _n := 6; _p := 2; _k := 3; _dim := d; _name := Some s |}.
Proof.
  apply (proj1 (proj2 (init_outcome 6 2 3) ltac:(lia) ltac:(lia)));
    reflexivity.
Defined.

(** C6, as stated, fails at [(n, p, k) = (2^1024, 1, 1)]: none of [n < p],
    [p < 1], [k < 1] holds, and the construction does not succeed: the
    conversion of [n p] to a float raises [OverflowError]. *)
Lemma init_overflows_at_2p1024 :
  ~ (2 ^ 1024 < 1 \/ 1 < 1 \/ 1 < 1)%Z
  /\ __init__ (2 ^ 1024) 1 1 = Raise OverflowError.
Proof.
  split; [|vm_compute; reflexivity].
  intros [H|[H|H]]; vm_compute in H; discriminate.
Qed.

(** C7.  For every manifold and every pair of arguments, [dist(X, Y)] and
    [log(X, Y)] raise [NotImplementedError]; neither returns a value, and
    the error differs from every [ValueError] (InvalidDimension). *)
Theorem dist_log_not_implemented (self : Stiefel) (X Y : array self) :
  dist self X Y = Raise NotImplementedError
  /\ log self X Y = Raise NotImplementedError
  /\ (forall d, dist self X Y <> Ok d)
  /\ (forall V, log self X Y <> Ok V)
  /\ (forall msg, NotImplementedError <> ValueError msg).
Proof. repeat split; intros; discriminate. Qed.









(** * Further properties of the operators *)



(** X8.  For [k = 1], [retr] returns a point of the manifold whenever the
    QR kernel returns a Q factor with orthonormal columns: the sign
    correction keeps the shape and the orthonormality of the columns. *)
Theorem retr_single_orthonormal (qr : matrix -> result (matrix * matrix))
  (self : Stiefel) (n p : nat) (x g q r : matrix) :
  (0 < n)%nat -> (0 < p)%nat ->
  has_shape n p x -> has_shape n p g ->
  qr (madd x g) = Ok (q, r) ->
  has_shape n p q -> has_shape p p r -> orthonormal p q ->
  exists y : matrix,
    retr qr (as_single self) x g = Ok y
    /\ has_shape n p y /\ orthonormal p y.
Proof.
  intros Hn Hp _ _ E Hq Hr Ho. exists (unflip q r).
  rewrite retr_single_formula, E. split; [reflexivity|]. split.
  - apply (unflip_shape n p); assumption.
  - apply (unflip_orthonormal n p); assumption.
Qed.

Lemma retr_single_orthonormal_witness :
  exists y : matrix,
    retr (fun _ => Ok ([[1]; [0]], [[1]])) (as_single St_2_1)
      [[1]; [0]] [[0]; [3]] = Ok y
    /\ has_shape 2 1 y /\ orthonormal 1 y.
Proof.
  apply (retr_single_orthonormal (fun _ => Ok ([[1]; [0]], [[1]])) St_2_1 2 1
           [[1]; [0]] [[0]; [3]] [[1]; [0]] [[1]]);
    try lia; try reflexivity; repeat constructor.
  exact e1_orthonormal.
Defined.

(** X9.  For [k = 1], the result [Y] of [retr(X, G)] is the Q factor of a
    factorisation [X + G = Y R'] in which the diagonal of [R'] is
    non-negative: [R'] is the R factor of the QR kernel with the rows of
    negative diagonal entry negated, and it is upper triangular when the
    kernel's R factor is. *)
Theorem retr_single_factor (qr : matrix -> result (matrix * matrix))
  (self : Stiefel) (n p : nat) (x g q r : matrix) :
  (0 < n)%nat -> (0 < p)%nat ->
  has_shape n p x -> has_shape n p g ->
  qr (madd x g) = Ok (q, r) ->
  has_shape n p q -> has_shape p p r -> dot q r = madd x g ->
  exists y r' : matrix,
    retr qr (as_single self) x g = Ok y
    /\ dot y r' = madd x g
    /\ (forall j, (j < p)%nat -> 0 <= get r' j j)
    /\ (upper_triangular p r -> upper_triangular p r').
Proof.
  intros Hn Hp _ _ E Hq Hr Hf. exists (unflip q r), (flip_rows p r).
  rewrite retr_single_formula, E. split; [reflexivity|]. split; [|split].
  - rewrite (unflip_factor n p) by assumption. exact Hf.
  - intros j Hj. unfold flip_rows. rewrite get_mk by assumption.
    apply flip_sign_diag.
  - intros Hu i j Hi Hj. unfold flip_rows. rewrite get_mk by lia.
    rewrite Hu by assumption. lra.
Qed.

Lemma retr_single_factor_witness :
  exists y r' : matrix,
    retr (fun _ => Ok ([[1]; [0]], [[1]])) (as_single St_2_1)
      [[1]; [0]] (zeros 2 1) = Ok y
    /\ dot y r' = madd [[1]; [0]] (zeros 2 1)
    /\ (forall j, (j < 1)%nat -> 0 <= get r' j j)
    /\ (upper_triangular 1 [[1]] -> upper_triangular 1 r').
Proof.
  apply (retr_single_factor (fun _ => Ok ([[1]; [0]], [[1]])) St_2_1 2 1
           [[1]; [0]] (zeros 2 1) [[1]; [0]] [[1]]);
    try lia; try reflexivity; try exact e1_qr_example; repeat constructor.
Defined.

(** X10.  For [k = 1], [retr] is centred: at a point [X] with orthonormal
    columns, [retr(X, 0)] is [X], for every QR kernel that returns a
    factorisation [X = Q R] with orthonormal [Q] and upper triangular [R],
    whatever the signs of the diagonal of [R]. *)
Theorem retr_single_zero (qr : matrix -> result (matrix * matrix))
  (self : Stiefel) (n p : nat) (x q r : matrix) :
  (0 < n)%nat -> (0 < p)%nat ->
  has_shape n p x -> orthonormal p x ->
  qr (madd x (zeros n p)) = Ok (q, r) ->
  has_shape n p q -> has_shape p p r -> orthonormal p q ->
  upper_triangular p r -> dot q r = madd x (zeros n p) ->
  retr qr (as_single self) x (zeros n p) = Ok x.
Proof.
  intros Hn Hp Hx Hox E Hq Hr Hoq Hu Hf.
  rewrite retr_single_formula, E. cbn [bind fst snd]. f_equal.
  rewrite (madd_zeros_r n p) in Hf by assumption.
  apply (unflip_identity n p); assumption.
Qed.

Lemma retr_single_zero_witness :
  retr (fun _ => Ok ([[1]; [0]], [[1]])) (as_single St_2_1)
    [[1]; [0]] (zeros 2 1) = Ok [[1]; [0]].
Proof.
  apply (retr_single_zero (fun _ => Ok ([[1]; [0]], [[1]])) St_2_1 2 1
           [[1]; [0]] [[1]; [0]] [[1]]);
    try lia; try reflexivity; try exact e1_orthonormal;
    try exact e1_qr_example; try (intros i j Hi Hj; lia); repeat constructor.
Defined.

(** X11.  [rand] draws one matrix per slice and returns the Q factors in
    the order of the draws: the slices of its result, its failure and the
    state in which it leaves the generator are those of [k] successive
    draws, each followed by a QR factorisation, on both branches.  The
    loop of the [k > 1] branch raises nothing of its own. *)
Theorem rand_per_slice (qr : matrix -> result (matrix * matrix))
  (rng : Type) (randn2 : rng -> nat -> nat -> matrix * rng)
  (self : Stiefel) (g : rng) :
  (1 <= _p self <= _n self)%Z -> (1 <= _k self)%Z ->
  (forall A q r, qr A = Ok (q, r) ->
     has_shape (Z.to_nat (_n self)) (Z.to_nat (_p self)) q) ->
  (X <- fst (rand qr rng randn2 self g) ;; Ok (slices X),
   snd (rand qr rng randn2 self g))
  = rand_draws qr rng randn2 (Z.to_nat (_n self)) (Z.to_nat (_p self))
      (Z.to_nat (_k self)) g.
Proof. intros _ Hk _. apply rand_slices. exact Hk. Qed.

Lemma rand_per_slice_witness :
  (X <- fst (rand (fun _ => Ok ([[1]; [0]], [[1]])) nat
               (fun g _ _ => ([[INR g]; [1]], S g)) St_2_1_k2 0%nat) ;;
   Ok (slices X),
   snd (rand (fun _ => Ok ([[1]; [0]], [[1]])) nat
          (fun g _ _ => ([[INR g]; [1]], S g)) St_2_1_k2 0%nat))
  = rand_draws (fun _ => Ok ([[1]; [0]], [[1]])) nat
      (fun g _ _ => ([[INR g]; [1]], S g)) 2 1 2 0%nat.
Proof.
  apply (rand_per_slice (fun _ => Ok ([[1]; [0]], [[1]])) nat
           (fun g _ _ => ([[INR g]; [1]], S g)) St_2_1_k2 0%nat).
  - simpl. lia.
  - simpl. lia.
  - intros A q r E. injection E as <- _. repeat constructor.
Defined.

(** X12.  [rand] returns a point of the manifold whenever the QR kernel
    returns Q factors of the shape of the slices with orthonormal columns:
    the result has [k] slices of shape [(n, p)], each with orthonormal
    columns. *)
Theorem rand_on_manifold (qr : matrix -> result (matrix * matrix))
  (rng : Type) (randn2 : rng -> nat -> nat -> matrix * rng)
  (self : Stiefel) (g : rng) (X : array self) :
  (1 <= _p self <= _n self)%Z -> (1 <= _k self)%Z ->
  (forall A q r, qr A = Ok (q, r) ->
     has_shape (Z.to_nat (_n self)) (Z.to_nat (_p self)) q
     /\ orthonormal (Z.to_nat (_p self)) q) ->
  fst (rand qr rng randn2 self g) = Ok X ->
  stack_shape (Z.to_nat (_k self)) (Z.to_nat (_n self)) (Z.to_nat (_p self)) X
  /\ Forall (orthonormal (Z.to_nat (_p self))) (slices X).
Proof.
  intros _ Hk Hqr HX.
  assert (R := rand_slices qr rng randn2 self g Hk).
  rewrite HX in R. cbn [bind] in R.
  assert (E : fst (rand_draws qr rng randn2 (Z.to_nat (_n self))
                     (Z.to_nat (_p self)) (Z.to_nat (_k self)) g)
              = Ok (slices X)) by (rewrite <- R; reflexivity).
  destruct (rand_draws_all qr rng randn2 _ _ _
              (fun q => has_shape (Z.to_nat (_n self)) (Z.to_nat (_p self)) q
                        /\ orthonormal (Z.to_nat (_p self)) q)
              g (slices X) Hqr E) as [HL HF].
  split; [split; [exact HL|]|].
  - eapply Forall_impl; [|exact HF]. intros q [H _]. exact H.
  - eapply Forall_impl; [|exact HF]. intros q [_ H]. exact H.
Qed.

Lemma rand_on_manifold_witness :
  stack_shape 2 2 1 ([[[1]; [0]]; [[1]; [0]]] : array St_2_1_k2)
  /\ Forall (orthonormal 1) [[[1]; [0]]; [[1]; [0]]].
Proof.
  apply (rand_on_manifold (fun _ => Ok ([[1]; [0]], [[1]])) nat
           (fun g _ _ => ([[INR g]; [1]], S g)) St_2_1_k2 0%nat
           ([[[1]; [0]]; [[1]; [0]]] : list matrix)).
  - simpl. lia.
  - simpl. lia.
  - intros A q r E. injection E as <- _. split; [repeat constructor|].
    exact e1_orthonormal.
  - reflexivity.
Defined.

(** X15.  [transp(x1, x2, d)] is the projection at the target point: the
    source point [x1] plays no part, and a [d] whose residual
    [x2t d + dt x2], as [proj] computes it in binary64, is zero in every
    entry is returned as it is, each entry the same float up to the sign of
    a zero. *)
Theorem transp_fixes_zero_residual (self : Stiefel) (k n p : nat)
  (x1 x1' x2 d : stiefel64.array self) :
  stack_shape64 k n p x2 -> stack_shape64 k n p d ->
  Forall (all_entries is_finite) (np64.slices x2) ->
  Forall (fun xd => all_entries is_zero (residual64 (fst xd) (snd xd)))
    (combine (np64.slices x2) (np64.slices d)) ->
  stiefel64.transp self x1 x2 d = stiefel64.transp self x1' x2 d
  /\ Forall2 same_matrix (np64.slices (stiefel64.transp self x1 x2 d))
       (np64.slices d).
Proof.
  intros [LX _] [LD HD] HX HR. unfold stiefel64.transp.
  split; [reflexivity|]. rewrite proj64_slices.
  apply (map2_proj_code64_fixes n p); try assumption. lia.
Qed.

Lemma transp_fixes_zero_residual_witness :
  stiefel64.transp St_2_1_k2
    ([[[np64.zero]; [np64.one]]; [[np64.one]; [np64.zero]]]
       : list np64.matrix)
    ([[[np64.one]; [np64.zero]]; [[np64.zero]; [np64.one]]]
       : list np64.matrix)
    ([[[np64.zero]; [pow2 2]]; [[pow2 3]; [np64.zero]]] : list np64.matrix)
  = stiefel64.transp St_2_1_k2
      ([[[np64.one]; [np64.zero]]; [[np64.one]; [np64.zero]]]
         : list np64.matrix)
      ([[[np64.one]; [np64.zero]]; [[np64.zero]; [np64.one]]]
         : list np64.matrix)
      ([[[np64.zero]; [pow2 2]]; [[pow2 3]; [np64.zero]]] : list np64.matrix)
  /\ Forall2 same_matrix
       (np64.slices
          (stiefel64.transp St_2_1_k2
             ([[[np64.zero]; [np64.one]]; [[np64.one]; [np64.zero]]]
                : list np64.matrix)
             ([[[np64.one]; [np64.zero]]; [[np64.zero]; [np64.one]]]
                : list np64.matrix)
             ([[[np64.zero]; [pow2 2]]; [[pow2 3]; [np64.zero]]]
                : list np64.matrix)))
       [[[np64.zero]; [pow2 2]]; [[pow2 3]; [np64.zero]]].
Proof.
  apply (transp_fixes_zero_residual St_2_1_k2 2 2 1
           ([[[np64.zero]; [np64.one]]; [[np64.one]; [np64.zero]]]
              : list np64.matrix)
           ([[[np64.one]; [np64.zero]]; [[np64.one]; [np64.zero]]]
              : list np64.matrix)
           ([[[np64.one]; [np64.zero]]; [[np64.zero]; [np64.one]]]
              : list np64.matrix)
           ([[[np64.zero]; [pow2 2]]; [[pow2 3]; [np64.zero]]]
              : list np64.matrix));
    by_evaluation.
Defined.

(** X16.  For [k > 1], [exp] on stacks with fewer than [k] slices raises
    [IndexError]: the loop computes every slice that is there, so that a
    failure of [expm] on one of them comes first, and then indexes past the
    end of [X]. *)
Theorem exp_short_stack (expm : matrix -> result matrix) (self : Stiefel)
  (X U : array self) :
  single self = false ->
  (List.length (slices X) < Z.to_nat (_k self))%nat ->
  List.length (slices U) = List.length (slices X) ->
  exp expm self X U
  = (Y <- mapM2 (exp_closed_form expm (Z.to_nat (_p self)))
            (slices X) (slices U) ;;
     Raise IndexError).
Proof.
  revert X U. unfold array, exp. destruct (single self); [discriminate|].
  cbn [slices]. intros X U _ HL HU. unfold xrange.
  replace (Z.to_nat (_k self))
    with (List.length X + S (Z.to_nat (_k self) - S (List.length X)))%nat by lia.
  rewrite seq_app, exp_loop_app.
  assert (E := exp_loop_spec expm (Z.to_nat (_p self)) X U (zeros_like3 X)
                 HU (zeros_like3_length X) [] [] [] eq_refl eq_refl).
  cbn [app List.length] in E. rewrite E.
  destruct (mapM2 _ X U) as [Y|e]; cbn [bind]; [|reflexivity].
  cbn [seq exp_loop]. rewrite getitem_out_of_range by lia. reflexivity.
Qed.

Lemma exp_short_stack_witness :
  exp (fun A => Ok A) St_2_1_k2
    ([[[1]; [0]]] : list matrix) ([[[0]; [1]]] : list matrix)
  = (Y <- mapM2 (exp_closed_form (fun A => Ok A) 1)
            [[[1]; [0]]] [[[0]; [1]]] ;;
     Raise IndexError).
Proof.
  apply (exp_short_stack (fun A => Ok A) St_2_1_k2
           ([[[1]; [0]]] : list matrix) ([[[0]; [1]]] : list matrix)).
  - reflexivity.
  - simpl. lia.
  - reflexivity.
Defined.

(** X17.  For [k > 1], [exp] on stacks with at least [k] slices maps the
    first [k] slices and leaves the others as the zeros the output was
    initialised with: the slices past [k] of the result are zero matrices,
    not points of the manifold. *)
Theorem exp_long_stack (expm : matrix -> result matrix) (self : Stiefel)
  (X U : array self) :
  single self = false ->
  (Z.to_nat (_k self) <= List.length (slices X))%nat ->
  List.length (slices U) = List.length (slices X) ->
  (Y <- exp expm self X U ;; Ok (slices Y))
  = (Y <- mapM2 (exp_closed_form expm (Z.to_nat (_p self)))
            (firstn (Z.to_nat (_k self)) (slices X))
            (firstn (Z.to_nat (_k self)) (slices U)) ;;
     Ok (Y ++ repeat (zeros (nrows (hd [] (slices X)))
                        (ncols (hd [] (slices X))))
                (List.length (slices X) - Z.to_nat (_k self)))).
Proof.
  revert X U. unfold array, exp. destruct (single self); [discriminate|].
  cbn [slices]. intros X U _ HL HU. unfold xrange.
  set (k := Z.to_nat (_k self)) in *.
  assert (E := exp_loop_prefix expm (Z.to_nat (_p self))
                 (firstn k X) (firstn k U) (firstn k (zeros_like3 X))
                 (skipn k X) (skipn k U) (skipn k (zeros_like3 X))).
  rewrite !length_firstn, zeros_like3_length, HU in E.
  specialize (E eq_refl eq_refl [] [] [] eq_refl eq_refl).
  cbn [app List.length] in E. rewrite !firstn_skipn in E.
  replace (Nat.min k (List.length X)) with k in E by lia.
  rewrite E, zeros_like3_skipn.
  destruct (mapM2 _ _ _); reflexivity.
Qed.

Lemma exp_long_stack_witness :
  (Y <- exp (fun A => Ok A) St_2_1_k2
          ([[[1]; [0]]; [[0]; [1]]; [[1]; [0]]] : list matrix)
          ([[[0]; [1]]; [[1]; [0]]; [[0]; [2]]] : list matrix) ;;
   Ok (slices Y))
  = (Y <- mapM2 (exp_closed_form (fun A => Ok A) 1)
            [[[1]; [0]]; [[0]; [1]]] [[[0]; [1]]; [[1]; [0]]] ;;
     Ok (Y ++ [zeros 2 1])).
Proof.
  apply (exp_long_stack (fun A => Ok A) St_2_1_k2
           ([[[1]; [0]]; [[0]; [1]]; [[1]; [0]]] : list matrix)
           ([[[0]; [1]]; [[1]; [0]]; [[0]; [2]]] : list matrix)).
  - reflexivity.
  - simpl. lia.
  - reflexivity.
Defined.

(** X18.  Every manifold that the constructor returns satisfies
    [n >= p >= 1] and [k >= 1], stores the three arguments, is handled by
    the [k == 1] branches exactly when [k = 1], and has a name: [name]
    returns the single or the product form and never finds [_name]
    unset, although [__init__] assigns it in an [if]/[elif] without
    [else]. *)
Theorem init_invariant (n p k : Z) (self : Stiefel) :
  __init__ n p k = Ok self ->
  (_n self = n /\ _p self = p /\ _k self = k)
  /\ (1 <= _p self <= _n self)%Z /\ (1 <= _k self)%Z
  /\ (single self = true <-> k = 1%Z)
  /\ name self
     = Ok (if (k =? 1)%Z
           then "Stiefel manifold St(" ++ fmt_d n ++ ", " ++ fmt_d p ++ ")"
           else "Product Stiefel manifold St(" ++ fmt_d n ++ ", " ++ fmt_d p
                ++ ")^" ++ fmt_d k)%string.
Proof.
  intros H. destruct (init_ok_inv n p k self H) as (Hp & Hk & d & _ & ->).
  cbn [_n _p _k]. repeat split; try lia.
  - unfold single. cbn [_k]. apply Z.eqb_eq.
  - unfold single. cbn [_k]. apply Z.eqb_eq.
  - unfold name, name_of. cbn [_name].
    destruct (k =? 1)%Z eqn:E1; [reflexivity|].
    replace (k >=? 2)%Z with true; [reflexivity|].
    symmetry. apply Z.geb_le. apply Z.eqb_neq in E1. lia.
Qed.

Lemma init_invariant_witness :
  (_n St_2_1_k2 = 2%Z /\ _p St_2_1_k2 = 1%Z /\ _k St_2_1_k2 = 2%Z)
  /\ (1 <= _p St_2_1_k2 <= _n St_2_1_k2)%Z /\ (1 <= _k St_2_1_k2)%Z
  /\ (single St_2_1_k2 = true <-> 2%Z = 1%Z)
  /\ name St_2_1_k2 = Ok "Product Stiefel manifold St(2, 1)^2"%string.
Proof.
  apply (init_invariant 2 1 2 St_2_1_k2). vm_compute. reflexivity.
Defined.

(** X19.  The dimension of a product manifold is [k] times the dimension
    of its factor, while [k*n*p <= 2^53]; the dimension of the factor is
    non-negative, is zero exactly for [St(1, 1)], is [n - 1] for the sphere
    ([p = 1]) and [n*(n-1)/2] for the orthogonal group ([p = n]). *)
Theorem dim_product_scaling (n p k : Z) (self self1 : Stiefel) :
  __init__ n p k = Ok self -> __init__ n p 1 = Ok self1 ->
  (k * (n * p) <= 2 ^ 53)%Z ->
  exists d1 : Z,
    integer_value (dim self1) = Some d1
    /\ integer_value (dim self) = Some (k * d1)%Z
    /\ (0 <= d1)%Z /\ (d1 = 0 <-> n = 1)%Z
    /\ (p = 1 -> d1 = n - 1)%Z
    /\ (p = n -> 2 * d1 = n * (n - 1))%Z.
Proof.
  intros H H1 Hb.
  destruct (init_ok_inv n p k self H) as (Hp & Hk & d & Ed & ->).
  destruct (init_ok_inv n p 1 self1 H1) as (_ & _ & d' & Ed' & ->).
  assert (Ht := triangular_bounds n p Hp).
  assert (Ev := triangular_even p).
  rewrite dim_of_exact in Ed by assumption.
  rewrite dim_of_exact, Z.mul_1_l in Ed' by (try assumption; nia).
  injection Ed as <-. injection Ed' as <-.
  exists (n * p - p * (p + 1) / 2)%Z. unfold dim. cbn [_dim].
  rewrite !integer_value_enc by nia.
  split; [reflexivity|]. split; [reflexivity|]. split; [lia|].
  split; [split|split].
  - intros E. assert (n < 2)%Z; [|lia].
    apply Z.nle_gt. intros Hn.
    assert (L := triangular_lt n p Hp Hn). lia.
  - intros ->. assert (p = 1)%Z by lia. subst p. reflexivity.
  - intros ->. change (1 * (1 + 1) / 2)%Z with 1%Z. lia.
  - intros <-. nia.
Qed.

Lemma dim_product_scaling_witness :
  exists d1 : Z,
    integer_value (dim St_2_1) = Some d1
    /\ integer_value (dim St_2_1_k2) = Some (2 * d1)%Z
    /\ (0 <= d1)%Z /\ (d1 = 0 <-> 2 = 1)%Z
    /\ (1 = 1 -> d1 = 2 - 1)%Z
    /\ (1 = 2 -> 2 * d1 = 2 * (2 - 1))%Z.
Proof.
  apply (dim_product_scaling 2 1 2 St_2_1_k2 St_2_1).
  - vm_compute. reflexivity.
  - vm_compute. reflexivity.
  - vm_compute. discriminate.
Defined.
